(** * coinutil: the [Tx] transaction handle of [tx.go]

    A shallow embedding of [tx.go] (package [btcutil]) and the properties of
    its memoised hash, its two constructors and its block index.

    Go values live on a garbage-collected heap and are reached through
    pointers; the handle [*Tx] caches a pointer to its hash and shares the
    pointer to the wrapped [btcwire.MsgTx] with its caller.  The embedding
    therefore threads an explicit store through every function: one heap per
    pointee type, pointers as optional locations ([None] is Go's [nil]).

    The package [btcwire] is an external collaborator.  Its record type, its
    hash type, its error values and the two methods [tx.go] calls on a record
    ([TxSha] and [Deserialize]) are parameters of the development. *)

From Stdlib Require Import ZArith Init.Byte.
From stdpp Require Import base option list gmap.

Local Open Scope Z_scope.

(** ** Pointers and slices *)

(** A heap location, and a Go pointer: [None] is [nil]. *)
Abbreviation loc := positive (only parsing).
Abbreviation ptr := (option positive) (only parsing).

(** A Go [[]byte] value: [None] is the nil slice, the zero value of the
    type; [Some bs] is a slice holding the bytes [bs]. *)
Abbreviation slice := (option (list byte)) (only parsing).

(** [bytes.NewBuffer(buf)]: the bytes a reader gets from the slice; a nil
    slice reads as empty. *)
Definition NewBuffer (buf : slice) : list byte := default [] buf.

(** [const TxIndexUnknown = -1] *)
Definition TxIndexUnknown : Z := -1.

(** [type Tx struct]: the fields in the order of the source.  [txIndex] is a
    Go [int]; the code only stores and returns it, so no arithmetic and no
    wrap-around is involved and the model keeps it as an integer. *)
Record Tx : Type := mkTx {
  msgTx : ptr;          (* *btcwire.MsgTx: underlying MsgTx *)
  serializedTx : slice; (* []byte: serialized bytes for the transaction *)
  txSha : ptr;          (* *btcwire.ShaHash: cached transaction hash *)
  txIndex : Z           (* int: position within a block or TxIndexUnknown *)
}.

Definition with_txSha (s : ptr) (tx : Tx) : Tx :=
  mkTx (msgTx tx) (serializedTx tx) s (txIndex tx).

Definition with_txIndex (i : Z) (tx : Tx) : Tx :=
  mkTx (msgTx tx) (serializedTx tx) (txSha tx) i.

Section Coinutil.

(** ** The external collaborator [btcwire] *)

(** The contents of a [btcwire.MsgTx], of a [btcwire.ShaHash], and the
    values of Go's [error] interface the codec produces ([nil] is
    [None : option Err]). *)
Context {MsgTxData ShaHash Err : Type}.

(** The zero value of [btcwire.MsgTx] ([var msgTx btcwire.MsgTx]). *)
Variable zeroMsgTx : MsgTxData.

(** [func (msg *MsgTx) TxSha() (ShaHash, error)] as a function of the
    record the receiver points to. *)
Variable wire_TxSha : MsgTxData -> ShaHash * option Err.

(** [func (msg *MsgTx) Deserialize(r io.Reader) error]: from the record the
    receiver points to and the bytes of the reader, the record the receiver
    holds afterwards and the error returned. *)
Variable wire_Deserialize : MsgTxData -> list byte -> MsgTxData * option Err.

(** ** The store *)

(** One heap per pointee type, and a ghost log of the calls made to
    [TxSha]: each entry is the handle whose [Sha] made the call and the
    record it was made on, most recent first. *)
Record World : Type := mkWorld {
  msgs : gmap positive MsgTxData;
  shas : gmap positive ShaHash;
  txs : gmap positive Tx;
  hashCalls : list (ptr * ptr)
}.

Definition emptyWorld : World := mkWorld ∅ ∅ ∅ [].

(** How a call ends: it returns a value in a new store, it panics with Go's
    "invalid memory address or nil pointer dereference", or it reads a
    location that was never allocated.  The last cannot happen in Go (a
    pointer is nil or valid); the model keeps it apart from a panic and
    [run_wf] below shows it is unreachable. *)
Inductive result (A : Type) : Type :=
| Ok (a : A) (w : World)
| Panic
| Stuck.
Global Arguments Ok {A} a w.
Global Arguments Panic {A}.
Global Arguments Stuck {A}.

Definition M (A : Type) : Type := World -> result A.

Definition ret {A} (a : A) : M A := fun w => Ok a w.

Definition bind {A B} (m : M A) (k : A -> M B) : M B :=
  fun w => match m w with
           | Ok a w' => k a w'
           | Panic => Panic
           | Stuck => Stuck
           end.

Notation "'let!' x ':=' m 'in' k" := (bind m (fun x => k))
  (at level 10, x pattern, m at level 200, k at level 200).

(** *** Loads, stores and allocation *)

(** Dereferencing a pointer of each type. *)
Definition load_tx (t : ptr) : M Tx := fun w =>
  match t with
  | None => Panic
  | Some l => match txs w !! l with Some tx => Ok tx w | None => Stuck end
  end.

Definition load_msg (m : ptr) : M MsgTxData := fun w =>
  match m with
  | None => Panic
  | Some l => match msgs w !! l with Some r => Ok r w | None => Stuck end
  end.

Definition store_tx (t : ptr) (tx : Tx) : M unit := fun w =>
  match t with
  | None => Panic
  | Some l =>
      match txs w !! l with
      | Some _ => Ok tt (mkWorld (msgs w) (shas w) (<[l := tx]> (txs w)) (hashCalls w))
      | None => Stuck
      end
  end.

Definition store_msg (m : ptr) (r : MsgTxData) : M unit := fun w =>
  match m with
  | None => Panic
  | Some l =>
      match msgs w !! l with
      | Some _ => Ok tt (mkWorld (<[l := r]> (msgs w)) (shas w) (txs w) (hashCalls w))
      | None => Stuck
      end
  end.

(** A value whose address is taken escapes to the heap, at a location no
    live value occupies. *)
Definition alloc_tx (tx : Tx) : M positive := fun w =>
  let l := fresh (dom (txs w)) in
  Ok l (mkWorld (msgs w) (shas w) (<[l := tx]> (txs w)) (hashCalls w)).

Definition alloc_msg (r : MsgTxData) : M positive := fun w =>
  let l := fresh (dom (msgs w)) in
  Ok l (mkWorld (<[l := r]> (msgs w)) (shas w) (txs w) (hashCalls w)).

Definition alloc_sha (h : ShaHash) : M positive := fun w =>
  let l := fresh (dom (shas w)) in
  Ok l (mkWorld (msgs w) (<[l := h]> (shas w)) (txs w) (hashCalls w)).

(** *** Calls into [btcwire] *)

Definition log_call (t msg : ptr) : M unit := fun w =>
  Ok tt (mkWorld (msgs w) (shas w) (txs w) ((t, msg) :: hashCalls w)).

(** [msg.TxSha()] made by the [Sha] of handle [t].  The call is logged on
    entry; the method then reads the record its receiver points to, so
    with a nil receiver it ends in a nil dereference. *)
Definition call_TxSha (t : ptr) (msg : ptr) : M (ShaHash * option Err) :=
  let! _ := log_call t msg in
  let! r := load_msg msg in
  ret (wire_TxSha r).

(** [msg.Deserialize(br)]: fills the record of the receiver in place and
    returns the error. *)
Definition call_Deserialize (msg : ptr) (br : list byte) : M (option Err) :=
  let! r := load_msg msg in
  let! _ := store_msg msg (wire_Deserialize r br).1 in
  ret (wire_Deserialize r br).2.

(** ** [tx.go] *)

(** [func (t *Tx) MsgTx() *btcwire.MsgTx] *)
Definition MsgTx (t : ptr) : M ptr :=
  let! tx := load_tx t in
  ret (msgTx tx).

(** [func (t *Tx) Sha() *btcwire.ShaHash] *)
Definition Sha (t : ptr) : M ptr :=
  let! tx := load_tx t in
  match txSha tx with
  | Some s => ret (Some s)                      (* if t.txSha != nil *)
  | None =>
      let! tx' := load_tx t in
      let! res := call_TxSha t (msgTx tx') in        (* sha, _ := t.msgTx.TxSha() *)
      let! s := alloc_sha res.1 in                   (* &sha *)
      let! tx'' := load_tx t in
      let! _ := store_tx t (with_txSha (Some s) tx'') in (* t.txSha = &sha *)
      ret (Some s)                              (* return &sha *)
  end.

(** [func (t *Tx) Index() int] *)
Definition Index (t : ptr) : M Z :=
  let! tx := load_tx t in
  ret (txIndex tx).

(** [func (t *Tx) SetIndex(index int)] *)
Definition SetIndex (t : ptr) (index : Z) : M unit :=
  let! tx := load_tx t in
  store_tx t (with_txIndex index tx).

(** [func NewTx(msgTx *btcwire.MsgTx) *Tx]: the fields the composite
    literal leaves out take their zero value, nil. *)
Definition NewTx (msg : ptr) : M ptr :=
  let! t := alloc_tx (mkTx msg None None TxIndexUnknown) in
  ret (Some t).

(** [func NewTxFromBytes(serializedTx []byte)], returning a [*Tx] and an
    [error] *)
Definition NewTxFromBytes (serialized : slice) : M (ptr * option Err) :=
  let! m := alloc_msg zeroMsgTx in                       (* var msgTx btcwire.MsgTx *)
  let! err := call_Deserialize (Some m) (NewBuffer serialized) in
  match err with
  | Some e => ret (None, Some e)                    (* return nil, err *)
  | None =>
      let! t := alloc_tx (mkTx (Some m) serialized None TxIndexUnknown) in
      ret (Some t, None)                            (* return &t, nil *)
  end.

(** ** Programs over handles *)

(** [Sha] called [n] times in a row on one handle, collecting what each
    call returns. *)
Fixpoint Sha_times (n : nat) (t : ptr) : M (list ptr) :=
  match n with
  | O => ret []
  | S k =>
      let! p := Sha t in
      let! ps := Sha_times k t in
      ret (p :: ps)
  end.

(** What a client of the package can do with the store: call the exported
    functions of [tx.go], and, as the owner of the records it passes in
    and gets back from [MsgTx], build a record or overwrite one in place
    through its pointer. *)
Inductive op : Type :=
| OpMsgTx (t : ptr)
| OpSha (t : ptr)
| OpIndex (t : ptr)
| OpSetIndex (t : ptr) (index : Z)
| OpNewTx (msg : ptr)
| OpNewTxFromBytes (serialized : slice)
| ExtNewMsgTx (r : MsgTxData)
| ExtWriteMsgTx (msg : ptr) (r : MsgTxData).

Definition discard {A} (m : M A) : M unit :=
  let! _ := m in ret tt.

Definition exec_op (o : op) : M unit :=
  match o with
  | OpMsgTx t => discard (MsgTx t)
  | OpSha t => discard (Sha t)
  | OpIndex t => discard (Index t)
  | OpSetIndex t index => SetIndex t index
  | OpNewTx msg => discard (NewTx msg)
  | OpNewTxFromBytes serialized => discard (NewTxFromBytes serialized)
  | ExtNewMsgTx r => discard (alloc_msg r)
  | ExtWriteMsgTx msg r => store_msg msg r
  end.

Fixpoint run (os : list op) : M unit :=
  match os with
  | [] => ret tt
  | o :: os' => let! _ := exec_op o in run os'
  end.

(** The operations that are not [SetIndex] on the handle at [l]. *)
Definition sets_index_of (l : positive) (o : op) : bool :=
  match o with
  | OpSetIndex (Some l') _ => bool_decide (l' = l)
  | _ => false
  end.

(** The operations that are not [Sha] on the handle at [l]. *)
Definition is_Sha_of (l : positive) (o : op) : bool :=
  match o with
  | OpSha (Some l') => bool_decide (l' = l)
  | _ => false
  end.

(** The number of logged [TxSha] calls made on behalf of the handle at
    [l]. *)
Definition is_call_of (l : positive) (c : ptr * ptr) : bool :=
  bool_decide (c.1 = Some l).

Definition calls_by (l : positive) (w : World) : nat :=
  length (filter (fun c => is_call_of l c = true) (hashCalls w)).

(** The hash a [*ShaHash] points to. *)
Definition hash_at (w : World) (p : ptr) : option ShaHash :=
  match p with
  | None => None
  | Some s => shas w !! s
  end.

(** *** Well-formed stores *)

Definition valid_msg (w : World) (p : ptr) : Prop :=
  match p with None => True | Some l => is_Some (msgs w !! l) end.

Definition valid_sha (w : World) (p : ptr) : Prop :=
  match p with None => True | Some l => is_Some (shas w !! l) end.

Definition valid_tx (w : World) (p : ptr) : Prop :=
  match p with None => True | Some l => is_Some (txs w !! l) end.

(** Every pointer held by a handle is nil or points into the store. *)
Definition wf (w : World) : Prop :=
  forall l tx, txs w !! l = Some tx ->
    valid_msg w (msgTx tx) /\ valid_sha w (txSha tx).

(** The pointers a client passes are nil or point into the store. *)
Definition op_ok (w : World) (o : op) : Prop :=
  match o with
  | OpMsgTx t | OpSha t | OpIndex t | OpSetIndex t _ => valid_tx w t
  | OpNewTx msg | ExtWriteMsgTx msg _ => valid_msg w msg
  | OpNewTxFromBytes _ | ExtNewMsgTx _ => True
  end.

(** *** The footprint of one operation *)

(** What an operation that returns may have done to the handles, to the
    hashes and to the log: nothing; set the index of one handle; computed,
    stored and logged the hash of one handle that had none; or added a
    handle at a location that held none. *)
Inductive effect (o : op) (w w' : World) : Prop :=
| eff_none :
    txs w' = txs w -> shas w' = shas w -> hashCalls w' = hashCalls w ->
    (forall l, sets_index_of l o = false) ->
    (forall l tx, txs w !! l = Some tx -> is_Sha_of l o = true -> is_Some (txSha tx)) ->
    effect o w w'
| eff_set_index l tx i :
    o = OpSetIndex (Some l) i -> txs w !! l = Some tx ->
    txs w' = <[l := with_txIndex i tx]> (txs w) ->
    shas w' = shas w -> hashCalls w' = hashCalls w ->
    effect o w w'
| eff_hash l tx s h :
    o = OpSha (Some l) -> txs w !! l = Some tx -> txSha tx = None ->
    shas w !! s = None ->
    txs w' = <[l := with_txSha (Some s) tx]> (txs w) ->
    shas w' = <[s := h]> (shas w) ->
    hashCalls w' = (Some l, msgTx tx) :: hashCalls w ->
    effect o w w'
| eff_new l tx :
    txs w !! l = None -> txSha tx = None -> txIndex tx = TxIndexUnknown ->
    txs w' = <[l := tx]> (txs w) ->
    shas w' = shas w -> hashCalls w' = hashCalls w ->
    (forall l', sets_index_of l' o = false) ->
    (forall l', is_Sha_of l' o = false) ->
    effect o w w'.

(** A run in which every operation is given pointers of the store it
    meets. *)
Fixpoint ops_ok (os : list op) (w : World) : Prop :=
  match os with
  | [] => True
  | o :: os' =>
      op_ok w o /\ forall w1, exec_op o w = Ok tt w1 -> ops_ok os' w1
  end.

(** The memoisation invariant: a handle with no cached hash has made no
    call to [TxSha], a handle with one has made at most one, and no call
    is logged for a location that holds no handle. *)
Definition cache_inv (w : World) : Prop :=
  forall l,
    match txs w !! l with
    | None => calls_by l w = 0%nat
    | Some tx =>
        match txSha tx with
        | None => calls_by l w = 0%nat
        | Some _ => (calls_by l w <= 1)%nat
        end
    end.

(** *** Further notions for the properties below *)

(** A client write through a [*ShaHash], such as the one [Sha] returns. *)
Definition store_sha (p : ptr) (h : ShaHash) : M unit := fun w =>
  match p with
  | None => Panic
  | Some l =>
      match shas w !! l with
      | Some _ => Ok tt (mkWorld (msgs w) (<[l := h]> (shas w)) (txs w) (hashCalls w))
      | None => Stuck
      end
  end.


(** Every cached hash is the hash [TxSha] gives for the record the handle
    wraps, as that record is now. *)
Definition hash_consistent (w : World) : Prop :=
  forall l tx s,
    txs w !! l = Some tx -> txSha tx = Some s ->
    exists m r,
      msgTx tx = Some m /\ msgs w !! m = Some r /\
      shas w !! s = Some (wire_TxSha r).1.

Definition is_nil (p : ptr) : bool :=
  match p with None => true | Some _ => false end.

(** The log holds one call for each handle that caches a hash and none for
    any other location. *)
Definition calls_exact (w : World) : Prop :=
  forall l,
    calls_by l w
    = match txs w !! l with
      | Some tx => if is_nil (txSha tx) then 0%nat else 1%nat
      | None => 0%nat
      end.

(** The operations that end in a nil dereference: a method called on a nil
    handle, [Sha] on a handle with neither a cached hash nor a record, and
    a client write through a nil pointer. *)
Definition panics (w : World) (o : op) : bool :=
  match o with
  | OpMsgTx t | OpIndex t | OpSetIndex t _ => is_nil t
  | OpSha None => true
  | OpSha (Some l) =>
      match txs w !! l with
      | Some tx => is_nil (txSha tx) && is_nil (msgTx tx)
      | None => false
      end
  | ExtWriteMsgTx msg _ => is_nil msg
  | OpNewTx _ | OpNewTxFromBytes _ | ExtNewMsgTx _ => false
  end.

(** Every handle wraps a record. *)
Definition records_nonnil (w : World) : Prop :=
  forall l tx, txs w !! l = Some tx -> is_Some (msgTx tx).

(** The client passes a pointer into the store, never nil. *)
Definition nonnil_ok (w : World) (o : op) : Prop :=
  match o with
  | OpMsgTx t | OpSha t | OpIndex t | OpSetIndex t _ =>
      exists l, t = Some l /\ is_Some (txs w !! l)
  | OpNewTx msg | ExtWriteMsgTx msg _ =>
      exists m, msg = Some m /\ is_Some (msgs w !! m)
  | OpNewTxFromBytes _ | ExtNewMsgTx _ => True
  end.

Fixpoint ops_nonnil (os : list op) (w : World) : Prop :=
  match os with
  | [] => True
  | o :: os' =>
      nonnil_ok w o /\ forall w1, exec_op o w = Ok tt w1 -> ops_nonnil os' w1
  end.

End Coinutil.

Global Arguments World : clear implicits.
Global Arguments result : clear implicits.
Global Arguments M : clear implicits.
Global Arguments op : clear implicits.

(** ** A small instance of the collaborator

    A stand-in for [btcwire] on which the functions above can be run: a
    record is the list of bytes it was decoded from, a hash is the number of
    those bytes, and the codec accepts exactly the inputs that start with the
    byte [0x01].  [TxSha] reports an error on the empty record and still
    returns a hash, as its signature allows. *)
Module Demo.

Inductive DecodeError : Type := ErrMalformed | ErrEmpty.

Definition zeroMsgTx : list byte := [].

Definition TxSha (r : list byte) : N * option DecodeError :=
  (N.of_nat (length r), match r with [] => Some ErrEmpty | _ => None end).

Definition Deserialize (r : list byte) (br : list byte)
  : list byte * option DecodeError :=
  match br with
  | x01 :: _ => (br, None)
  | _ => (r, Some ErrMalformed)
  end.

Abbreviation World := (World (list byte) N).

Abbreviation Sha := (Sha TxSha).
Abbreviation Sha_times := (Sha_times TxSha).
Abbreviation NewTxFromBytes := (NewTxFromBytes (ShaHash := N) zeroMsgTx Deserialize).
Abbreviation run := (run zeroMsgTx TxSha Deserialize).
Abbreviation exec_op := (exec_op zeroMsgTx TxSha Deserialize).

(** A record built by the client, and a handle on it. *)
Definition tx0 : Tx := mkTx (Some 1%positive) None None TxIndexUnknown.

Definition w_rec : World :=
  mkWorld (<[1%positive := [x01; x02]]> ∅) ∅ ∅ [].

Definition w_handle : World :=
  mkWorld (<[1%positive := [x01; x02]]> ∅) ∅ (<[1%positive := tx0]> ∅) [].

(** The same store after the first [Sha] on the handle. *)
Definition tx1 : Tx := mkTx (Some 1%positive) None (Some 1%positive) TxIndexUnknown.

Definition w_hashed : World :=
  mkWorld (<[1%positive := [x01; x02]]> ∅)
          (<[1%positive := 2%N]> ∅)
          (<[1%positive := tx1]> ∅)
          [(Some 1%positive, Some 1%positive)].

(** A handle on the empty record, for which [TxSha] reports an error. *)
Definition w_blank : World :=
  mkWorld (<[1%positive := []]> ∅) ∅ (<[1%positive := tx0]> ∅) [].

(** What a client does after the first [Sha]: it overwrites the record
    through the pointer it shares with the handle, asks for the hash
    again, sets the index, and wraps the record in a second handle whose
    hash it asks for. *)
Definition client : list (op (list byte)) :=
  [ExtWriteMsgTx (Some 1%positive) [x01];
   OpSha (Some 1%positive);
   OpSetIndex (Some 1%positive) 3;
   OpNewTx (Some 1%positive);
   OpSha (Some 2%positive)].

End Demo.

(** ** Properties *)

Section Properties.

Context {MsgTxData ShaHash Err : Type}.
Variable zeroMsgTx : MsgTxData.
Variable wire_TxSha : MsgTxData -> ShaHash * option Err.
Variable wire_Deserialize : MsgTxData -> list byte -> MsgTxData * option Err.

Local Abbreviation World := (World MsgTxData ShaHash).
Local Abbreviation Sha := (Sha wire_TxSha).
Local Abbreviation Sha_times := (Sha_times wire_TxSha).
Local Abbreviation NewTxFromBytes := (NewTxFromBytes zeroMsgTx wire_Deserialize).
Local Abbreviation exec_op := (exec_op zeroMsgTx wire_TxSha wire_Deserialize).
Local Abbreviation run := (run zeroMsgTx wire_TxSha wire_Deserialize).

Implicit Types (w : World) (l m s : positive) (tx : Tx) (t p : option positive).

(** *** Equations of the store primitives *)

Lemma load_tx_Some w l tx :
  txs w !! l = Some tx -> load_tx (Some l) w = Ok tx w.
Proof. intros H. unfold load_tx. by rewrite H. Qed.

Lemma load_msg_Some w m r :
  msgs w !! m = Some r -> load_msg (Some m) w = Ok r w.
Proof. intros H. unfold load_msg. by rewrite H. Qed.

Lemma load_tx_inv w w' t tx :
  load_tx t w = Ok tx w' -> w' = w /\ exists l, t = Some l /\ txs w !! l = Some tx.
Proof.
  unfold load_tx. destruct t as [l|]; [|done].
  destruct (txs w !! l) eqn:E; [|done]. intros [= -> ->]. eauto.
Qed.

Lemma fresh_tx_None w : txs w !! fresh (dom (txs w)) = None.
Proof. apply not_elem_of_dom, is_fresh. Qed.

Lemma fresh_sha_None w : shas w !! fresh (dom (shas w)) = None.
Proof. apply not_elem_of_dom, is_fresh. Qed.

Lemma fresh_msg_None w : msgs w !! fresh (dom (msgs w)) = None.
Proof. apply not_elem_of_dom, is_fresh. Qed.

(** *** Equations of the functions of [tx.go] *)

Lemma MsgTx_eq w l tx :
  txs w !! l = Some tx -> MsgTx (Some l) w = Ok (msgTx tx) w.
Proof. intros H. unfold MsgTx, bind. by rewrite (load_tx_Some _ _ _ H). Qed.

Lemma Index_eq w l tx :
  txs w !! l = Some tx -> Index (Some l) w = Ok (txIndex tx) w.
Proof. intros H. unfold Index, bind. by rewrite (load_tx_Some _ _ _ H). Qed.

Lemma SetIndex_eq w l tx i :
  txs w !! l = Some tx ->
  SetIndex (Some l) i w
  = Ok tt (mkWorld (msgs w) (shas w) (<[l := with_txIndex i tx]> (txs w)) (hashCalls w)).
Proof.
  intros H. unfold SetIndex, bind. rewrite (load_tx_Some _ _ _ H).
  unfold store_tx. by rewrite H.
Qed.

Lemma Sha_cached w l tx s :
  txs w !! l = Some tx -> txSha tx = Some s -> Sha (Some l) w = Ok (Some s) w.
Proof.
  intros H Hs. unfold Sha, bind. rewrite (load_tx_Some _ _ _ H).
  by rewrite Hs.
Qed.

Lemma Sha_compute w l tx m r :
  txs w !! l = Some tx -> txSha tx = None ->
  msgTx tx = Some m -> msgs w !! m = Some r ->
  Sha (Some l) w
  = Ok (Some (fresh (dom (shas w))))
       (mkWorld (msgs w)
                (<[fresh (dom (shas w)) := (wire_TxSha r).1]> (shas w))
                (<[l := with_txSha (Some (fresh (dom (shas w)))) tx]> (txs w))
                ((Some l, Some m) :: hashCalls w)).
Proof.
  intros H Hs Hm Hr. unfold Sha, bind. rewrite (load_tx_Some _ _ _ H), Hs.
  rewrite (load_tx_Some _ _ _ H), Hm. unfold call_TxSha, bind, log_call.
  unfold load_msg; simpl. rewrite Hr; simpl.
  unfold load_tx, store_tx; simpl. rewrite H; simpl. by rewrite H.
Qed.

Lemma Sha_nil_msg w l tx :
  txs w !! l = Some tx -> txSha tx = None -> msgTx tx = None ->
  Sha (Some l) w = Panic.
Proof.
  intros H Hs Hm. unfold Sha, bind. rewrite (load_tx_Some _ _ _ H), Hs.
  by rewrite (load_tx_Some _ _ _ H), Hm.
Qed.

Lemma Sha_dangling_msg w l tx m :
  txs w !! l = Some tx -> txSha tx = None ->
  msgTx tx = Some m -> msgs w !! m = None ->
  Sha (Some l) w = Stuck.
Proof.
  intros H Hs Hm Hr. unfold Sha, bind. rewrite (load_tx_Some _ _ _ H), Hs.
  rewrite (load_tx_Some _ _ _ H), Hm. unfold call_TxSha, bind, log_call.
  unfold load_msg; simpl. by rewrite Hr.
Qed.

Lemma NewTx_eq w msg :
  NewTx msg w
  = Ok (Some (fresh (dom (txs w))))
       (mkWorld (msgs w) (shas w)
                (<[fresh (dom (txs w)) := mkTx msg None None TxIndexUnknown]> (txs w))
                (hashCalls w)).
Proof. reflexivity. Qed.

Lemma NewTxFromBytes_eq w b :
  NewTxFromBytes b w
  = let m := fresh (dom (msgs w)) in
    let d := wire_Deserialize zeroMsgTx (NewBuffer b) in
    let ms := <[m := d.1]> (<[m := zeroMsgTx]> (msgs w)) in
    match d.2 with
    | Some e => Ok (None, Some e) (mkWorld ms (shas w) (txs w) (hashCalls w))
    | None =>
        Ok (Some (fresh (dom (txs w))), None)
           (mkWorld ms (shas w)
                    (<[fresh (dom (txs w)) := mkTx (Some m) b None TxIndexUnknown]> (txs w))
                    (hashCalls w))
    end.
Proof.
  unfold NewTxFromBytes, bind, alloc_msg, call_Deserialize, bind.
  unfold load_msg, store_msg; simpl.
  repeat (rewrite lookup_insert_eq; simpl).
  destruct (wire_Deserialize zeroMsgTx (NewBuffer b)).2; reflexivity.
Qed.

Lemma discard_inv {A} (c : M MsgTxData ShaHash A) w w' :
  discard c w = Ok tt w' -> exists a, c w = Ok a w'.
Proof.
  unfold discard, bind, ret. destruct (c w) as [a w1| |]; [|done..].
  intros [= ->]. eauto.
Qed.

Lemma exec_op_effect o w w' : exec_op o w = Ok tt w' -> effect o w w'.
Proof.
  destruct o as [t|t|t|t i|msg|b|r|msg r]; simpl; intros H.
  - apply discard_inv in H as [a H]. unfold MsgTx, bind in H.
    destruct (load_tx t w) as [tx w1| |] eqn:E; [|done..].
    apply load_tx_inv in E as [-> _]. injection H as _ <-.
    by apply eff_none.
  - apply discard_inv in H as [a H].
    destruct t as [l|]; [|done].
    destruct (txs w !! l) as [tx|] eqn:E.
    2:{ unfold Sha, bind, load_tx in H. by rewrite E in H. }
    destruct (txSha tx) as [s|] eqn:Es.
    { rewrite (Sha_cached _ _ _ _ E Es) in H. injection H as _ <-.
      apply eff_none; [done..|]. intros l' tx' E' Hl'; simpl in Hl'.
      apply bool_decide_eq_true in Hl' as ->. rewrite E in E'.
      injection E' as <-. rewrite Es. eauto. }
    destruct (msgTx tx) as [m|] eqn:Em.
    2:{ by rewrite (Sha_nil_msg _ _ _ E Es Em) in H. }
    destruct (msgs w !! m) as [r|] eqn:Er.
    2:{ by rewrite (Sha_dangling_msg _ _ _ _ E Es Em Er) in H. }
    rewrite (Sha_compute _ _ _ _ _ E Es Em Er) in H. injection H as _ <-.
    eapply eff_hash; simpl; eauto using fresh_sha_None. by rewrite Em.
  - apply discard_inv in H as [a H]. unfold Index, bind in H.
    destruct (load_tx t w) as [tx w1| |] eqn:E; [|done..].
    apply load_tx_inv in E as [-> _]. injection H as _ <-.
    by apply eff_none.
  - destruct t as [l|]; [|done].
    destruct (txs w !! l) as [tx|] eqn:E.
    2:{ unfold SetIndex, bind, load_tx in H. by rewrite E in H. }
    rewrite (SetIndex_eq _ _ _ _ E) in H. injection H as <-.
    by eapply eff_set_index.
  - apply discard_inv in H as [a H]. rewrite NewTx_eq in H.
    injection H as _ <-. eapply eff_new with (l := fresh (dom (txs w)))
                                    (tx := mkTx msg None None TxIndexUnknown);
      simpl; auto using fresh_tx_None.
  - apply discard_inv in H as [a H]. rewrite NewTxFromBytes_eq in H.
    simpl in H. destruct (wire_Deserialize zeroMsgTx (NewBuffer b)).2.
    + injection H as _ <-. by apply eff_none.
    + injection H as _ <-. eapply eff_new with
        (l := fresh (dom (txs w)))
        (tx := mkTx (Some (fresh (dom (msgs w)))) b None TxIndexUnknown);
        simpl; auto using fresh_tx_None.
  - apply discard_inv in H as [a H]. unfold alloc_msg in H.
    injection H as _ <-. by apply eff_none.
  - unfold store_msg in H. destruct msg as [m|]; [|done].
    destruct (msgs w !! m); [|done]. injection H as <-. by apply eff_none.
Qed.

Lemma calls_by_eq w w' l :
  hashCalls w' = hashCalls w -> calls_by l w' = calls_by l w.
Proof. unfold calls_by. by intros ->. Qed.

Lemma calls_by_cons w w' l l' msg :
  hashCalls w' = (Some l', msg) :: hashCalls w ->
  calls_by l w' = if bool_decide (l' = l) then S (calls_by l w) else calls_by l w.
Proof.
  unfold calls_by. intros ->. destruct (decide (l' = l)) as [->|Hne].
  - rewrite bool_decide_eq_true_2 by done. rewrite filter_cons_True; [done|].
    unfold is_call_of; simpl. by apply bool_decide_eq_true.
  - rewrite bool_decide_eq_false_2 by done. rewrite filter_cons_False; [done|].
    unfold is_call_of; simpl. rewrite bool_decide_eq_false_2; [done|congruence].
Qed.

(** What one operation does to a handle that exists before it. *)
Lemma effect_tx o w w' l tx :
  effect o w w' -> txs w !! l = Some tx ->
  exists tx',
    txs w' !! l = Some tx' /\
    msgTx tx' = msgTx tx /\ serializedTx tx' = serializedTx tx /\
    (sets_index_of l o = false -> txIndex tx' = txIndex tx) /\
    (is_Sha_of l o = false -> txSha tx' = txSha tx) /\
    (is_Some (txSha tx) -> txSha tx' = txSha tx) /\
    (sets_index_of l o = false -> is_Sha_of l o = false -> tx' = tx).
Proof.
  intros [Ht _ _ _ _|l0 tx0 i -> E0 Ht _ _|l0 tx0 s h -> E0 Es _ Ht _ _
         |l0 tx0 E0 _ _ Ht _ _ _ _] E; rewrite Ht.
  - eauto 10.
  - destruct (decide (l0 = l)) as [->|Hne].
    + rewrite lookup_insert_eq. rewrite E in E0. injection E0 as <-.
      eexists; split; [done|]. simpl. rewrite bool_decide_eq_true_2 by done.
      by repeat split.
    + rewrite lookup_insert_ne by done. eauto 10.
  - destruct (decide (l0 = l)) as [->|Hne].
    + rewrite lookup_insert_eq. rewrite E in E0. injection E0 as <-.
      eexists; split; [done|]. simpl. rewrite bool_decide_eq_true_2 by done.
      rewrite Es. by repeat split.
    + rewrite lookup_insert_ne by done. eauto 10.
  - rewrite lookup_insert_ne by congruence. eauto 10.
Qed.

(** A stored hash is never overwritten. *)
Lemma effect_shas o w w' s h :
  effect o w w' -> shas w !! s = Some h -> shas w' !! s = Some h.
Proof.
  intros [_ Hs _ _ _|? ? ? _ _ _ Hs _|? ? s0 ? _ _ _ E0 _ Hs _
         |? ? _ _ _ _ Hs _ _ _] E; rewrite Hs; try done.
  rewrite lookup_insert_ne; [done|congruence].
Qed.

(** A handle whose hash is cached makes no further call to [TxSha]. *)
Lemma effect_calls o w w' l tx :
  effect o w w' -> txs w !! l = Some tx -> is_Some (txSha tx) ->
  calls_by l w' = calls_by l w.
Proof.
  intros [_ _ Hc _ _|? ? ? _ _ _ _ Hc|l0 tx0 ? ? _ E0 Es _ _ _ Hc
         |? ? _ _ _ _ _ Hc _ _] E Hs; try by apply calls_by_eq.
  rewrite (calls_by_cons _ _ _ _ _ Hc). case_bool_decide as El; [|done].
  subst l0. rewrite E in E0. injection E0 as <-. rewrite Es in Hs.
  by destruct Hs.
Qed.

Lemma effect_cache_inv o w w' : effect o w w' -> cache_inv w -> cache_inv w'.
Proof.
  intros Heff Hinv l. specialize (Hinv l).
  destruct Heff as [Ht _ Hc _ _|l0 tx0 i _ E0 Ht _ Hc|l0 tx0 s h _ E0 Es _ Ht _ Hc
                   |l0 tx0 E0 Es _ Ht _ Hc _ _].
  - by rewrite Ht, (calls_by_eq _ _ _ Hc).
  - rewrite Ht, (calls_by_eq _ _ _ Hc).
    destruct (decide (l0 = l)) as [->|Hne].
    + rewrite lookup_insert_eq. by rewrite E0 in Hinv.
    + by rewrite lookup_insert_ne.
  - rewrite Ht, (calls_by_cons _ _ _ _ _ Hc).
    destruct (decide (l0 = l)) as [->|Hne].
    + rewrite lookup_insert_eq, bool_decide_eq_true_2 by done; simpl.
      rewrite E0, Es in Hinv. by rewrite Hinv.
    + by rewrite lookup_insert_ne, bool_decide_eq_false_2.
  - rewrite Ht, (calls_by_eq _ _ _ Hc).
    destruct (decide (l0 = l)) as [->|Hne].
    + rewrite lookup_insert_eq, Es. by rewrite E0 in Hinv.
    + by rewrite lookup_insert_ne.
Qed.

(** *** Runs *)

Lemma run_cons_inv o os w w' :
  run (o :: os) w = Ok tt w' ->
  exists w1, exec_op o w = Ok tt w1 /\ run os w1 = Ok tt w'.
Proof.
  simpl. unfold bind. destruct (exec_op o w) as [[] w1| |]; [|done..]. eauto.
Qed.

Lemma cache_inv_empty : cache_inv (emptyWorld : World).
Proof. intros l. simpl. by rewrite lookup_empty. Qed.

Lemma run_cache_inv os w w' :
  run os w = Ok tt w' -> cache_inv w -> cache_inv w'.
Proof.
  revert w. induction os as [|o os IH]; intros w H Hinv.
  - by injection H as <-.
  - apply run_cons_inv in H as (w1 & H1 & H2).
    eauto using effect_cache_inv, exec_op_effect.
Qed.

(** Over a whole run: the pointers and the bytes of a handle stay, its
    cached hash stays once set, and its index stays as long as no
    [SetIndex] is made on it. *)
Lemma run_tx os w w' l tx :
  run os w = Ok tt w' -> txs w !! l = Some tx ->
  exists tx',
    txs w' !! l = Some tx' /\
    msgTx tx' = msgTx tx /\ serializedTx tx' = serializedTx tx /\
    (forallb (fun o => negb (sets_index_of l o)) os = true ->
     txIndex tx' = txIndex tx) /\
    (is_Some (txSha tx) -> txSha tx' = txSha tx /\ calls_by l w' = calls_by l w).
Proof.
  revert w tx. induction os as [|o os IH]; intros w tx H E.
  - injection H as <-. eauto 10.
  - apply run_cons_inv in H as (w1 & H1 & H2).
    apply exec_op_effect in H1.
    destruct (effect_tx _ _ _ _ _ H1 E) as (tx1 & E1 & Hm1 & Hb1 & Hi1 & _ & Hs1 & _).
    destruct (IH _ _ H2 E1) as (tx' & E' & Hm' & Hb' & Hi' & Hs').
    exists tx'. split; [done|]. split; [congruence|]. split; [congruence|].
    split.
    + simpl. intros [Ho Hos]%andb_prop. apply negb_true_iff in Ho.
      rewrite Hi', Hi1; done.
    + intros Hs. pose proof (effect_calls _ _ _ _ _ H1 E Hs) as Hc.
      pose proof (Hs1 Hs) as Hs1'.
      assert (is_Some (txSha tx1)) as Hs2 by (by rewrite Hs1').
      destruct (Hs' Hs2) as [Ha Hb]. split; congruence.
Qed.

Lemma run_shas os w w' s h :
  run os w = Ok tt w' -> shas w !! s = Some h -> shas w' !! s = Some h.
Proof.
  revert w. induction os as [|o os IH]; intros w H E.
  - by injection H as <-.
  - apply run_cons_inv in H as (w1 & H1 & H2).
    eauto using effect_shas, exec_op_effect.
Qed.

(** *** Well-formed stores never get stuck *)

Lemma discard_Ok {A} (c : M MsgTxData ShaHash A) w w' a :
  c w = Ok a w' -> discard c w = Ok tt w'.
Proof. unfold discard, bind. by intros ->. Qed.

Lemma discard_Panic {A} (c : M MsgTxData ShaHash A) w :
  c w = Panic -> discard c w = Panic.
Proof. unfold discard, bind. by intros ->. Qed.

Lemma wf_update w w' :
  wf w ->
  (forall m, is_Some (msgs w !! m) -> is_Some (msgs w' !! m)) ->
  (forall s, is_Some (shas w !! s) -> is_Some (shas w' !! s)) ->
  (forall l tx',
     txs w' !! l = Some tx' ->
     (exists tx, txs w !! l = Some tx /\
                 msgTx tx' = msgTx tx /\ txSha tx' = txSha tx)
     \/ (valid_msg w' (msgTx tx') /\ valid_sha w' (txSha tx'))) ->
  wf w'.
Proof.
  intros Hwf Hm Hs Ht l tx' E'.
  destruct (Ht _ _ E') as [(tx & E & -> & ->)|]; [|done].
  destruct (Hwf _ _ E) as [Vm Vs]. split.
  - destruct (msgTx tx); simpl in *; auto.
  - destruct (txSha tx); simpl in *; auto.
Qed.

Lemma is_Some_insert {V} (h : gmap positive V) (i j : positive) (v : V) :
  is_Some (h !! j) -> is_Some (<[i := v]> h !! j).
Proof.
  intros H. destruct (decide (i = j)) as [->|Hne].
  - rewrite lookup_insert_eq. eauto.
  - by rewrite lookup_insert_ne.
Qed.

Lemma lookup_insert_tx_cases (h : gmap positive Tx) l l' tx tx' :
  <[l := tx]> h !! l' = Some tx' ->
  (l' = l /\ tx' = tx) \/ h !! l' = Some tx'.
Proof.
  destruct (decide (l = l')) as [->|Hne].
  - rewrite lookup_insert_eq. intros [= <-]. by left.
  - rewrite lookup_insert_ne by done. by right.
Qed.

Lemma exec_op_wf o w :
  wf w -> op_ok w o ->
  (exists w', exec_op o w = Ok tt w' /\ wf w') \/ exec_op o w = Panic.
Proof.
  intros Hwf Hok.
  destruct o as [[l|]|[l|]|[l|]|[l|] i|msg|b|r|[m|] r]; simpl in *;
    try (by right).
  - destruct Hok as [tx E]. left. exists w.
    split; [|done]. eapply discard_Ok, MsgTx_eq, E.
  - destruct Hok as [tx E]. destruct (Hwf _ _ E) as [Vm Vs].
    destruct (txSha tx) as [s|] eqn:Es.
    { left. exists w. split; [|done]. eapply discard_Ok, Sha_cached; eauto. }
    destruct (msgTx tx) as [m|] eqn:Em.
    2:{ right. eapply discard_Panic, Sha_nil_msg; eauto. }
    destruct Vm as [r Er]. left. eexists.
    split; [eapply discard_Ok, Sha_compute; eauto|].
    apply (wf_update w); simpl; auto using is_Some_insert.
    intros l' tx' [[-> ->]|E']%lookup_insert_tx_cases.
    + right. simpl. rewrite Em; simpl. split; [eauto|].
      rewrite lookup_insert_eq. eauto.
    + left. eauto.
  - destruct Hok as [tx E]. left. exists w.
    split; [|done]. eapply discard_Ok, Index_eq, E.
  - destruct Hok as [tx E]. left. eexists. split; [by apply SetIndex_eq|].
    apply (wf_update w); simpl; auto.
    intros l' tx' [[-> ->]|E']%lookup_insert_tx_cases; left; eauto.
  - left. eexists. split; [eapply discard_Ok, NewTx_eq|].
    apply (wf_update w); simpl; auto.
    intros l' tx' [[-> ->]|E']%lookup_insert_tx_cases; [right|left; eauto].
    by simpl.
  - left. unfold discard, bind. rewrite NewTxFromBytes_eq; simpl.
    destruct (wire_Deserialize zeroMsgTx (NewBuffer b)).2; eexists;
      (split; [reflexivity|]);
      apply (wf_update w); simpl; auto using is_Some_insert.
    + intros l' tx' E'. left. eauto.
    + intros l' tx' [[-> ->]|E']%lookup_insert_tx_cases; [right|left; eauto].
      simpl. rewrite lookup_insert_eq. eauto.
  - left. eexists. split; [reflexivity|].
    apply (wf_update w); simpl; auto using is_Some_insert.
    intros l' tx' E'. left. eauto.
  - destruct Hok as [r0 E]. left. unfold store_msg. rewrite E. eexists.
    split; [reflexivity|].
    apply (wf_update w); simpl; auto using is_Some_insert.
    intros l' tx' E'. left. eauto.
Qed.

Lemma wf_empty : wf (emptyWorld : World).
Proof. intros l tx. simpl. by rewrite lookup_empty. Qed.

(** X11. From a well-formed store, a run whose operations are given
    pointers of the store returns in a well-formed store or panics: no
    handle ever holds a pointer to a location that holds nothing, and no
    call reads one. *)
Lemma run_wf os w :
  wf w -> ops_ok zeroMsgTx wire_TxSha wire_Deserialize os w ->
  (exists w', run os w = Ok tt w' /\ wf w') \/ run os w = Panic.
Proof.
  revert w. induction os as [|o os IH]; intros w Hwf Hok.
  - left. by exists w.
  - destruct Hok as [Ho Hos]. simpl. unfold bind.
    destruct (exec_op_wf o w Hwf Ho) as [(w1 & H1 & Hwf1)|H1]; rewrite H1;
      [|by right].
    apply IH; auto.
Qed.

Lemma Sha_times_cached n w l tx s :
  txs w !! l = Some tx -> txSha tx = Some s ->
  Sha_times n (Some l) w = Ok (replicate n (Some s)) w.
Proof.
  intros E Es. induction n as [|n IH]; [done|].
  simpl. unfold bind. by rewrite (Sha_cached _ _ _ _ E Es), IH.
Qed.

(** *** The hash accessor *)

(** C1. [Sha] called n >= 1 times in a row on a handle that wraps a record
    (or already caches a hash) returns the same pointer every time, and
    over the n calls [TxSha] is called at most once: with a cached hash the
    calls return it and leave the store as it was, log included; without
    one [TxSha] is called exactly once, on the wrapped record, and its
    hash is stored at a new location, cached in the handle and returned.
    In a store that satisfies the memoisation invariant, as every store
    reached from the empty one does, the handle has then made at most one
    call to [TxSha] in all. *)
Theorem Sha_memoised (n : nat) w l tx :
  txs w !! l = Some tx ->
  (is_Some (txSha tx)
   \/ exists m r, msgTx tx = Some m /\ msgs w !! m = Some r) ->
  (1 <= n)%nat ->
  exists s w',
    Sha_times n (Some l) w = Ok (replicate n (Some s)) w' /\
    (calls_by l w' <= calls_by l w + 1)%nat /\
    (length (hashCalls w') <= length (hashCalls w) + 1)%nat /\
    (cache_inv w -> (calls_by l w' <= 1)%nat) /\
    (forall s0, txSha tx = Some s0 -> s = s0 /\ w' = w) /\
    (txSha tx = None ->
     exists m r,
       msgTx tx = Some m /\ msgs w !! m = Some r /\
       shas w !! s = None /\
       w' = mkWorld (msgs w)
                    (<[s := (wire_TxSha r).1]> (shas w))
                    (<[l := with_txSha (Some s) tx]> (txs w))
                    ((Some l, Some m) :: hashCalls w)).
Proof.
  intros E Hpre Hn. destruct n as [|n]; [lia|].
  destruct (txSha tx) as [s|] eqn:Es.
  - exists s, w. rewrite (Sha_times_cached _ _ _ _ _ E Es).
    split; [done|]. split; [lia|]. split; [lia|].
    split; [|split; [by intros s0 [= ->]|done]].
    intros Hinv. specialize (Hinv l). by rewrite E, Es in Hinv.
  - destruct Hpre as [[? [=]]|(m & r & Em & Er)].
    set (s := fresh (dom (shas w))).
    set (w' := mkWorld (msgs w) (<[s := (wire_TxSha r).1]> (shas w))
                       (<[l := with_txSha (Some s) tx]> (txs w))
                       ((Some l, Some m) :: hashCalls w)).
    exists s, w'. split; [|split; [|split; [|split; [|split]]]].
    + simpl. unfold bind. rewrite (Sha_compute _ _ _ _ _ E Es Em Er).
      fold s w'. by rewrite (Sha_times_cached n w' l (with_txSha (Some s) tx) s)
        by (simpl; by rewrite ?lookup_insert_eq).
    + rewrite (calls_by_cons w w' l l (Some m)) by done.
      rewrite bool_decide_eq_true_2 by done. lia.
    + simpl. lia.
    + intros Hinv. specialize (Hinv l). rewrite E, Es in Hinv.
      rewrite (calls_by_cons w w' l l (Some m)) by done.
      rewrite bool_decide_eq_true_2 by done. lia.
    + done.
    + intros _. exists m, r. repeat split; [done..|apply fresh_sha_None].
Qed.

(** Over any run that starts in the empty store, [TxSha] has been called
    at most once on behalf of each handle. *)
Lemma run_TxSha_at_most_once os w l :
  run os emptyWorld = Ok tt w -> (calls_by l w <= 1)%nat.
Proof.
  intros H. pose proof (run_cache_inv _ _ _ H cache_inv_empty l) as Hl.
  destruct (txs w !! l) as [tx|]; [destruct (txSha tx)|]; lia.
Qed.

(** C4. Once a handle caches a hash, no run of operations changes that:
    whatever is called on this or other handles, and whatever the client
    writes into the wrapped record, the handle still caches the same
    pointer, the pointer still holds the same hash, no further call to
    [TxSha] is made on behalf of the handle, and [Sha] still returns the
    pointer without touching the store. *)
Theorem cached_hash_fixed os w w' l tx s h :
  txs w !! l = Some tx -> txSha tx = Some s -> shas w !! s = Some h ->
  run os w = Ok tt w' ->
  (exists tx', txs w' !! l = Some tx' /\ txSha tx' = Some s) /\
  shas w' !! s = Some h /\
  calls_by l w' = calls_by l w /\
  Sha (Some l) w' = Ok (Some s) w'.
Proof.
  intros E Es Eh H.
  destruct (run_tx _ _ _ _ _ H E) as (tx' & E' & _ & _ & _ & Hs).
  destruct Hs as [Hs Hc]; [by rewrite Es|]. rewrite Es in Hs.
  split; [eauto|]. split; [eauto using run_shas|]. split; [done|].
  eauto using Sha_cached.
Qed.

(** *** Frame *)

(** C5, as amended.  For a handle that exists before an operation that
    returns: its record pointer and its bytes are never changed; its index
    is changed only by [SetIndex] on it, which changes nothing else; its
    cached hash is changed only by [Sha] on it, and only while it is nil;
    every other operation leaves the whole handle as it was. *)
Theorem handle_frame o w w' l tx :
  exec_op o w = Ok tt w' -> txs w !! l = Some tx ->
  exists tx',
    txs w' !! l = Some tx' /\
    msgTx tx' = msgTx tx /\ serializedTx tx' = serializedTx tx /\
    (sets_index_of l o = false -> txIndex tx' = txIndex tx) /\
    (forall i, o = OpSetIndex (Some l) i -> tx' = with_txIndex i tx) /\
    (is_Sha_of l o = false -> txSha tx' = txSha tx) /\
    (is_Some (txSha tx) -> txSha tx' = txSha tx) /\
    (sets_index_of l o = false -> is_Sha_of l o = false -> tx' = tx).
Proof.
  intros H E.
  destruct (effect_tx _ _ _ _ _ (exec_op_effect _ _ _ H) E)
    as (tx' & E' & Hm & Hb & Hi & Hs & Hs' & Hsame).
  exists tx'. repeat split; try done.
  intros i ->. simpl in H. rewrite (SetIndex_eq _ _ _ _ E) in H.
  injection H as <-. simpl in E'. rewrite lookup_insert_eq in E'. congruence.
Qed.

(** *** Construction *)

(** C2. [NewTxFromBytes] always returns; the error it returns is the one
    [Deserialize] returned, so it fails exactly when the codec rejects the
    bytes; and when it fails the pointer it returns is nil and the store
    holds the same handles as before. *)
Theorem NewTxFromBytes_error b w :
  exists t err w',
    NewTxFromBytes b w = Ok (t, err) w' /\
    err = (wire_Deserialize zeroMsgTx (NewBuffer b)).2 /\
    (is_Some err -> t = None /\ txs w' = txs w) /\
    (err = None -> is_Some t).
Proof.
  rewrite NewTxFromBytes_eq; simpl.
  destruct (wire_Deserialize zeroMsgTx (NewBuffer b)).2 as [e|];
    do 3 eexists; (split; [reflexivity|]); simpl;
    (split; [reflexivity|]); split; try done; by intros [? [=]].
Qed.

(** C6. When the codec accepts the bytes and decodes them to [R],
    [NewTxFromBytes] returns a nil error and a pointer to a new handle
    whose record pointer is a new location holding [R], whose bytes are
    the argument itself, whose cached hash is nil and whose index is
    [TxIndexUnknown]. *)
Theorem NewTxFromBytes_success b w R :
  wire_Deserialize zeroMsgTx (NewBuffer b) = (R, None) ->
  exists l m w',
    NewTxFromBytes b w = Ok (Some l, None) w' /\
    txs w !! l = None /\ msgs w !! m = None /\
    txs w' !! l = Some (mkTx (Some m) b None TxIndexUnknown) /\
    msgs w' !! m = Some R /\
    shas w' = shas w /\ hashCalls w' = hashCalls w.
Proof.
  intros HR. rewrite NewTxFromBytes_eq; simpl. rewrite HR; simpl.
  do 3 eexists. split; [reflexivity|]. simpl.
  rewrite !lookup_insert_eq.
  repeat split; auto using fresh_tx_None, fresh_msg_None.
Qed.

(** C3. When the codec decodes the bytes to [R]: the record accessor of
    the handle built from them returns a pointer to [R], so hashing what
    it points to gives the hash of [R]; and the hash accessor returns a
    pointer to the hash [TxSha] computes for [R]. *)
Theorem NewTxFromBytes_round_trip b w R :
  wire_Deserialize zeroMsgTx (NewBuffer b) = (R, None) ->
  exists l m s w1 w2,
    NewTxFromBytes b w = Ok (Some l, None) w1 /\
    MsgTx (Some l) w1 = Ok (Some m) w1 /\
    wire_TxSha <$> msgs w1 !! m = Some (wire_TxSha R) /\
    Sha (Some l) w1 = Ok (Some s) w2 /\
    hash_at w2 (Some s) = Some (wire_TxSha R).1.
Proof.
  intros HR.
  set (m := fresh (dom (msgs w))). set (l := fresh (dom (txs w))).
  set (w1 := mkWorld (<[m := R]> (<[m := zeroMsgTx]> (msgs w))) (shas w)
                     (<[l := mkTx (Some m) b None TxIndexUnknown]> (txs w))
                     (hashCalls w)).
  assert (NewTxFromBytes b w = Ok (Some l, None) w1) as H
    by (rewrite NewTxFromBytes_eq; simpl; by rewrite HR).
  assert (txs w1 !! l = Some (mkTx (Some m) b None TxIndexUnknown)) as E
    by apply lookup_insert_eq.
  assert (msgs w1 !! m = Some R) as Em by apply lookup_insert_eq.
  exists l, m, (fresh (dom (shas w1))). eexists w1, _.
  split; [done|]. split; [by rewrite (MsgTx_eq _ _ _ E)|].
  split; [by rewrite Em|]. split; [by eapply Sha_compute|].
  simpl. by rewrite lookup_insert_eq.
Qed.

(** *** The index *)

Lemma run_Index os w w' l tx :
  txs w !! l = Some tx ->
  forallb (fun o => negb (sets_index_of l o)) os = true ->
  run os w = Ok tt w' ->
  Index (Some l) w' = Ok (txIndex tx) w'.
Proof.
  intros E Hos H.
  destruct (run_tx _ _ _ _ _ H E) as (tx' & E' & _ & _ & Hi & _).
  rewrite (Index_eq _ _ _ E'). by rewrite Hi.
Qed.

(** C7. [NewTx] returns for every argument, a pointer to a new handle
    that wraps the argument, with nil bytes, a nil cached hash and the
    index [TxIndexUnknown].  The handle of either constructor reports
    -1 from [Index] at once, and after any run of operations in which
    [SetIndex] is not called on it. *)
Theorem constructors_sentinel msg b w :
  (exists l w1,
     NewTx msg w = Ok (Some l) w1 /\
     txs w !! l = None /\
     w1 = mkWorld (msgs w) (shas w)
                  (<[l := mkTx msg None None TxIndexUnknown]> (txs w))
                  (hashCalls w) /\
     Index (Some l) w1 = Ok (-1) w1 /\
     forall os w2,
       forallb (fun o => negb (sets_index_of l o)) os = true ->
       run os w1 = Ok tt w2 -> Index (Some l) w2 = Ok (-1) w2) /\
  (forall l w1,
     NewTxFromBytes b w = Ok (Some l, None) w1 ->
     Index (Some l) w1 = Ok (-1) w1 /\
     forall os w2,
       forallb (fun o => negb (sets_index_of l o)) os = true ->
       run os w1 = Ok tt w2 -> Index (Some l) w2 = Ok (-1) w2).
Proof.
  split.
  - eexists _, _. split; [apply NewTx_eq|]. split; [apply fresh_tx_None|].
    split; [done|]. set (w1 := mkWorld _ _ _ _).
    assert (txs w1 !! fresh (dom (txs w))
            = Some (mkTx msg None None TxIndexUnknown)) as E
      by apply lookup_insert_eq.
    split; [by rewrite (Index_eq _ _ _ E)|].
    intros os w2 Hos H. by rewrite (run_Index _ _ _ _ _ E Hos H).
  - intros l w1. rewrite NewTxFromBytes_eq; simpl.
    destruct (wire_Deserialize zeroMsgTx (NewBuffer b)).2; [done|].
    intros [= <- <-]. set (w1 := mkWorld _ _ _ _).
    assert (txs w1 !! fresh (dom (txs w))
            = Some (mkTx (Some (fresh (dom (msgs w)))) b None TxIndexUnknown)) as E
      by apply lookup_insert_eq.
    split; [by rewrite (Index_eq _ _ _ E)|].
    intros os w2 Hos H. by rewrite (run_Index _ _ _ _ _ E Hos H).
Qed.

(** C8. On any handle and for any integer [i], [SetIndex i] returns,
    having replaced the index and nothing else, and [Index] then returns
    [i]. *)
Theorem SetIndex_Index w l tx (i : Z) :
  txs w !! l = Some tx ->
  exists w',
    SetIndex (Some l) i w = Ok tt w' /\
    w' = mkWorld (msgs w) (shas w) (<[l := with_txIndex i tx]> (txs w)) (hashCalls w) /\
    Index (Some l) w' = Ok i w'.
Proof.
  intros E. eexists. split; [by apply SetIndex_eq|]. split; [done|].
  erewrite Index_eq; [|apply lookup_insert_eq]. done.
Qed.

(** *** Failure *)

(** C9. On a handle that wraps a record, [Sha], [Index] and [SetIndex]
    return: none panics.  [Sha] returns a pointer to a hash whatever error
    [TxSha] reported next to it; on a handle with no cached hash that is
    the hash [TxSha] computed for the record. *)
Theorem accessors_return w l tx m r :
  txs w !! l = Some tx -> msgTx tx = Some m -> msgs w !! m = Some r ->
  (exists s w',
     Sha (Some l) w = Ok (Some s) w' /\
     (txSha tx = None -> hash_at w' (Some s) = Some (wire_TxSha r).1)) /\
  Index (Some l) w = Ok (txIndex tx) w /\
  (forall i, exists w', SetIndex (Some l) i w = Ok tt w').
Proof.
  intros E Em Er. split; [|split].
  - destruct (txSha tx) as [s|] eqn:Es.
    + exists s, w. split; [by eapply Sha_cached|done].
    + eexists _, _. split; [by eapply Sha_compute|].
      intros _. simpl. by rewrite lookup_insert_eq.
  - by apply Index_eq.
  - intros i. eexists. by apply SetIndex_eq.
Qed.

(** C10. [NewTx] accepts a nil record and returns a handle on it, and
    [Sha] on that handle panics.  In general, on a handle with no cached
    hash [Sha] panics exactly when the record pointer is nil, and it
    returns whenever the pointer is to a record. *)
Theorem Sha_nil_record w :
  (exists l w1,
     NewTx None w = Ok (Some l) w1 /\
     txs w1 !! l = Some (mkTx None None None TxIndexUnknown) /\
     Sha (Some l) w1 = Panic) /\
  (forall l tx,
     txs w !! l = Some tx -> txSha tx = None ->
     (Sha (Some l) w = Panic <-> msgTx tx = None) /\
     (forall m, msgTx tx = Some m -> is_Some (msgs w !! m) ->
                exists s w', Sha (Some l) w = Ok (Some s) w')).
Proof.
  split.
  - eexists _, _. split; [apply NewTx_eq|]. set (w1 := mkWorld _ _ _ _).
    assert (txs w1 !! fresh (dom (txs w))
            = Some (mkTx None None None TxIndexUnknown)) as E
      by apply lookup_insert_eq.
    split; [done|]. by eapply Sha_nil_msg.
  - intros l tx E Es. split.
    + split; [|by apply Sha_nil_msg].
      destruct (msgTx tx) as [m|] eqn:Em; [|done].
      destruct (msgs w !! m) as [r|] eqn:Er.
      * by rewrite (Sha_compute _ _ _ _ _ E Es Em Er).
      * by rewrite (Sha_dangling_msg _ _ _ _ E Es Em Er).
    + intros m Em [r Er]. eexists _, _. by eapply Sha_compute.
Qed.

End Properties.

(** ** Further properties of [tx.go] *)

Section Composition.

Context {MsgTxData ShaHash Err : Type}.
Variable zeroMsgTx : MsgTxData.
Variable wire_TxSha : MsgTxData -> ShaHash * option Err.
Variable wire_Deserialize : MsgTxData -> list byte -> MsgTxData * option Err.

Local Abbreviation World := (World MsgTxData ShaHash).
Local Abbreviation Sha := (Sha wire_TxSha).
Local Abbreviation NewTxFromBytes := (NewTxFromBytes zeroMsgTx wire_Deserialize).
Local Abbreviation exec_op := (exec_op zeroMsgTx wire_TxSha wire_Deserialize).
Local Abbreviation run := (run zeroMsgTx wire_TxSha wire_Deserialize).

Implicit Types (w : World) (l m s : positive) (tx : Tx) (t p : option positive).

Lemma Sha_unallocated w l : txs w !! l = None -> Sha (Some l) w = Stuck.
Proof. intros E. unfold Sha, bind, load_tx. by rewrite E. Qed.

Lemma SetIndex_unallocated w l i :
  txs w !! l = None -> SetIndex (Some l) i w = Stuck.
Proof. intros E. unfold SetIndex, bind, load_tx. by rewrite E. Qed.

(** How a returning [Sha] went: it found the hash cached, or it found the
    record and computed it. *)
Lemma Sha_Ok_inv w w' l p :
  Sha (Some l) w = Ok p w' ->
  exists tx,
    txs w !! l = Some tx /\
    ((exists s, txSha tx = Some s /\ p = Some s /\ w' = w)
     \/ (exists m r,
           txSha tx = None /\ msgTx tx = Some m /\ msgs w !! m = Some r /\
           p = Some (fresh (dom (shas w))) /\
           w' = mkWorld (msgs w)
                        (<[fresh (dom (shas w)) := (wire_TxSha r).1]> (shas w))
                        (<[l := with_txSha (Some (fresh (dom (shas w)))) tx]> (txs w))
                        ((Some l, Some m) :: hashCalls w))).
Proof.
  intros H. destruct (txs w !! l) as [tx|] eqn:E.
  2:{ by rewrite (Sha_unallocated _ _ E) in H. }
  exists tx. split; [done|].
  destruct (txSha tx) as [s|] eqn:Es.
  { rewrite (Sha_cached _ _ _ _ _ E Es) in H. injection H as <- <-.
    left. eauto. }
  destruct (msgTx tx) as [m|] eqn:Em.
  2:{ by rewrite (Sha_nil_msg _ _ _ _ E Es Em) in H. }
  destruct (msgs w !! m) as [r|] eqn:Er.
  2:{ by rewrite (Sha_dangling_msg _ _ _ _ _ E Es Em Er) in H. }
  rewrite (Sha_compute _ _ _ _ _ _ E Es Em Er) in H. injection H as <- <-.
  right. exists m, r. eauto 10.
Qed.

Lemma world_eta w : mkWorld (msgs w) (shas w) (txs w) (hashCalls w) = w.
Proof. by destruct w. Qed.

(** *** The index as a cell *)

(** X1. On an existing handle a second [SetIndex] overrides the first, so
    two in a row leave the store that the second alone leaves; and writing
    back the index that [Index] returned leaves the store as it was. *)
Theorem SetIndex_laws w l tx (i j : Z) :
  txs w !! l = Some tx ->
  bind (SetIndex (Some l) i) (fun _ => SetIndex (Some l) j) w
  = SetIndex (Some l) j w
  /\ bind (Index (Some l)) (fun k => SetIndex (Some l) k) w = Ok tt w.
Proof.
  intros E. split.
  - unfold bind. rewrite (SetIndex_eq _ _ _ i E).
    erewrite SetIndex_eq by apply lookup_insert_eq.
    rewrite (SetIndex_eq _ _ _ j E). simpl. by rewrite insert_insert_eq.
  - unfold bind. rewrite (Index_eq _ _ _ E), (SetIndex_eq _ _ _ _ E).
    assert (with_txIndex (txIndex tx) tx = tx) as -> by by destruct tx.
    by rewrite (insert_id _ _ _ E), world_eta.
Qed.

(** X2. [SetIndex] and [Sha] on the same pointer commute: in either order
    the two calls end the same way, and when they return they return the
    same hash pointer in the same store.  This holds for every pointer and
    every store, the nil handle and the nil record included. *)
Theorem SetIndex_Sha_commute w t (i : Z) :
  bind (SetIndex t i) (fun _ => Sha t) w
  = bind (Sha t) (fun p => bind (SetIndex t i) (fun _ => ret p)) w.
Proof.
  destruct t as [l|]; [|done].
  destruct (txs w !! l) as [tx|] eqn:E.
  2:{ unfold bind. by rewrite (SetIndex_unallocated _ _ _ E), (Sha_unallocated _ _ E). }
  unfold bind at 1. rewrite (SetIndex_eq _ _ _ i E).
  set (w1 := mkWorld _ _ _ _).
  assert (txs w1 !! l = Some (with_txIndex i tx)) as E1 by apply lookup_insert_eq.
  destruct (txSha tx) as [s|] eqn:Es.
  { rewrite (Sha_cached _ w1 l _ s E1) by done.
    unfold bind. rewrite (Sha_cached _ _ _ _ _ E Es).
    by rewrite (SetIndex_eq _ _ _ i E). }
  destruct (msgTx tx) as [m|] eqn:Em.
  2:{ rewrite (Sha_nil_msg _ w1 l _ E1) by done.
      unfold bind. by rewrite (Sha_nil_msg _ _ _ _ E Es Em). }
  destruct (msgs w !! m) as [r|] eqn:Er.
  2:{ rewrite (Sha_dangling_msg _ w1 l _ m E1) by done.
      unfold bind. by rewrite (Sha_dangling_msg _ _ _ _ _ E Es Em Er). }
  rewrite (Sha_compute _ w1 l _ m r E1) by done.
  unfold bind. rewrite (Sha_compute _ _ _ _ _ _ E Es Em Er).
  erewrite SetIndex_eq by apply lookup_insert_eq.
  unfold ret; simpl. by rewrite !insert_insert_eq.
Qed.

(** *** What the cache shares *)

(** X3. The pointer [Sha] returns is the cache itself, not a copy: after a
    client writes another hash through it, [Sha] on the handle returns the
    same pointer, which now holds what the client wrote. *)
Theorem Sha_pointer_is_cache w w1 l p h h' :
  Sha (Some l) w = Ok p w1 -> hash_at w1 p = Some h ->
  exists w2,
    store_sha p h' w1 = Ok tt w2 /\
    Sha (Some l) w2 = Ok p w2 /\
    hash_at w2 p = Some h'.
Proof.
  intros H Hh.
  assert (exists s tx1, p = Some s /\ txs w1 !! l = Some tx1 /\ txSha tx1 = Some s)
    as (s & tx1 & -> & E1 & Es1).
  { destruct (Sha_Ok_inv _ _ _ _ H) as (tx & E & [(s & Es & -> & ->)|
      (m & r & Es & Em & Er & -> & ->)]); [by eauto|].
    eexists _, _. split; [done|]. simpl. by rewrite lookup_insert_eq. }
  simpl in Hh. unfold store_sha. rewrite Hh. eexists. split; [done|].
  split; [by eapply Sha_cached|]. simpl. by rewrite lookup_insert_eq.
Qed.

(** X4. The record is shared too, and the cache does not follow it: once
    [Sha] has computed the hash of the record [r], a client that overwrites
    the record with [r'] through its own pointer sees [r'] behind the
    pointer [MsgTx] returns, while [Sha] keeps returning the hash of [r]. *)
Theorem Sha_stale_after_write w l tx m r r' :
  txs w !! l = Some tx -> txSha tx = None ->
  msgTx tx = Some m -> msgs w !! m = Some r ->
  exists s w1 w2,
    Sha (Some l) w = Ok (Some s) w1 /\
    store_msg (Some m) r' w1 = Ok tt w2 /\
    MsgTx (Some l) w2 = Ok (Some m) w2 /\
    msgs w2 !! m = Some r' /\
    Sha (Some l) w2 = Ok (Some s) w2 /\
    hash_at w2 (Some s) = Some (wire_TxSha r).1.
Proof.
  intros E Es Em Er. eexists _, _, _.
  split; [by eapply Sha_compute|]. unfold store_msg; simpl. rewrite Er.
  split; [done|].
  set (w2 := mkWorld _ _ _ _).
  assert (txs w2 !! l = Some (with_txSha (Some (fresh (dom (shas w)))) tx)) as E2
    by apply lookup_insert_eq.
  split; [rewrite (MsgTx_eq _ _ _ E2); simpl; by rewrite Em|].
  split; [apply lookup_insert_eq|].
  split; [by eapply Sha_cached|]. simpl. apply lookup_insert_eq.
Qed.

End Composition.

(** ** Invariants of runs *)

Section Invariants.

Context {MsgTxData ShaHash Err : Type}.
Variable zeroMsgTx : MsgTxData.
Variable wire_TxSha : MsgTxData -> ShaHash * option Err.
Variable wire_Deserialize : MsgTxData -> list byte -> MsgTxData * option Err.

Local Abbreviation World := (World MsgTxData ShaHash).
Local Abbreviation Sha := (Sha wire_TxSha).
Local Abbreviation NewTxFromBytes := (NewTxFromBytes zeroMsgTx wire_Deserialize).
Local Abbreviation exec_op := (exec_op zeroMsgTx wire_TxSha wire_Deserialize).
Local Abbreviation run := (run zeroMsgTx wire_TxSha wire_Deserialize).
Local Abbreviation hash_consistent := (hash_consistent wire_TxSha).

Implicit Types (w : World) (l m s : positive) (tx : Tx) (t p : option positive).

Lemma lookup_insert_fresh {V} (h : gmap positive V) (j : positive) (x v : V) :
  h !! j = Some x -> <[fresh (dom h) := v]> h !! j = Some x.
Proof.
  intros E. rewrite lookup_insert_ne; [done|]. intros <-.
  pose proof (is_fresh (dom h)) as Hf. apply not_elem_of_dom in Hf. congruence.
Qed.

(** The store an operation that returns leaves behind, operation by
    operation. *)
Lemma exec_op_Ok_inv o w w' :
  exec_op o w = Ok tt w' ->
  match o with
  | OpMsgTx t | OpIndex t =>
      w' = w /\ exists l, t = Some l /\ is_Some (txs w !! l)
  | OpSha t => exists l p, t = Some l /\ Sha (Some l) w = Ok p w'
  | OpSetIndex t i =>
      exists l tx,
        t = Some l /\ txs w !! l = Some tx /\
        w' = mkWorld (msgs w) (shas w) (<[l := with_txIndex i tx]> (txs w))
                     (hashCalls w)
  | OpNewTx msg =>
      w' = mkWorld (msgs w) (shas w)
                   (<[fresh (dom (txs w)) := mkTx msg None None TxIndexUnknown]> (txs w))
                   (hashCalls w)
  | OpNewTxFromBytes b =>
      exists res, NewTxFromBytes b w = Ok res w'
  | ExtNewMsgTx r =>
      w' = mkWorld (<[fresh (dom (msgs w)) := r]> (msgs w)) (shas w) (txs w)
                   (hashCalls w)
  | ExtWriteMsgTx msg r =>
      exists m,
        msg = Some m /\ is_Some (msgs w !! m) /\
        w' = mkWorld (<[m := r]> (msgs w)) (shas w) (txs w) (hashCalls w)
  end.
Proof.
  destruct o as [t|t|t|t i|msg|b|r|msg r]; simpl; intros H.
  - apply discard_inv in H as [a H]. unfold MsgTx, bind in H.
    destruct (load_tx t w) as [tx w1| |] eqn:E; [|done..].
    apply load_tx_inv in E as [-> (l & -> & E)]. injection H as _ <-. eauto.
  - apply discard_inv in H as [a H]. destruct t as [l|]; [eauto|done].
  - apply discard_inv in H as [a H]. unfold Index, bind in H.
    destruct (load_tx t w) as [tx w1| |] eqn:E; [|done..].
    apply load_tx_inv in E as [-> (l & -> & E)]. injection H as _ <-. eauto.
  - destruct t as [l|]; [|done].
    destruct (txs w !! l) as [tx|] eqn:E.
    2:{ unfold SetIndex, bind, load_tx in H. by rewrite E in H. }
    rewrite (SetIndex_eq _ _ _ _ E) in H. injection H as <-. eauto.
  - apply discard_inv in H as [a H]. rewrite NewTx_eq in H. by injection H as _ <-.
  - apply discard_inv in H as [a H]. eauto.
  - apply discard_inv in H as [a H]. unfold alloc_msg in H. by injection H as _ <-.
  - unfold store_msg in H. destruct msg as [m|]; [|done].
    destruct (msgs w !! m) eqn:E; [|done]. injection H as <-. eauto.
Qed.

(** *** Panics *)

Lemma exec_op_Panic o w : exec_op o w = Panic <-> panics w o = true.
Proof.
  destruct o as [[l|]|[l|]|[l|]|[l|] i|msg|b|r|[m|] r]; simpl; try done.
  - unfold discard, bind, MsgTx, bind, load_tx. by destruct (txs w !! l).
  - unfold discard, bind. destruct (txs w !! l) as [tx|] eqn:E.
    2:{ by rewrite (Sha_unallocated wire_TxSha _ _ E). }
    destruct (txSha tx) as [s|] eqn:Es.
    { by rewrite (Sha_cached _ _ _ _ _ E Es). }
    destruct (msgTx tx) as [m|] eqn:Em.
    2:{ by rewrite (Sha_nil_msg _ _ _ _ E Es Em). }
    destruct (msgs w !! m) as [r|] eqn:Er.
    + by rewrite (Sha_compute _ _ _ _ _ _ E Es Em Er).
    + by rewrite (Sha_dangling_msg _ _ _ _ _ E Es Em Er).
  - unfold discard, bind, Index, bind, load_tx. by destruct (txs w !! l).
  - unfold SetIndex, bind, load_tx. destruct (txs w !! l) as [tx|] eqn:E; [|done].
    unfold store_tx. by rewrite E.
  - unfold discard, bind. rewrite NewTxFromBytes_eq; simpl.
    by destruct (wire_Deserialize zeroMsgTx (NewBuffer b)).2.
  - unfold store_msg. by destruct (msgs w !! m).
Qed.

(** X5. An operation panics exactly in the cases [panics] lists: a method
    called on a nil handle, [Sha] on a handle with no cached hash and a nil
    record, a client write through nil.  The constructors never panic, and
    in a well-formed store every other operation on pointers of the store
    returns, in a well-formed store. *)
Theorem panics_exactly o w :
  (exec_op o w = Panic <-> panics w o = true) /\
  (wf w -> op_ok w o -> panics w o = false ->
   exists w', exec_op o w = Ok tt w' /\ wf w').
Proof.
  split; [apply exec_op_Panic|]. intros Hwf Hok Hp.
  destruct (exec_op_wf zeroMsgTx wire_TxSha wire_Deserialize o w Hwf Hok)
    as [?|HP]; [done|].
  apply exec_op_Panic in HP. congruence.
Qed.

(** *** The call log *)

Lemma effect_calls_exact o w w' : effect o w w' -> calls_exact w -> calls_exact w'.
Proof.
  intros Heff Hinv l. specialize (Hinv l).
  destruct Heff as [Ht _ Hc _ _|l0 tx0 i _ E0 Ht _ Hc|l0 tx0 s h _ E0 Es _ Ht _ Hc
                   |l0 tx0 E0 Es _ Ht _ Hc _ _].
  - by rewrite Ht, (calls_by_eq _ _ _ Hc).
  - rewrite Ht, (calls_by_eq _ _ _ Hc).
    destruct (decide (l0 = l)) as [->|Hne].
    + rewrite lookup_insert_eq. by rewrite E0 in Hinv.
    + by rewrite lookup_insert_ne.
  - rewrite Ht, (calls_by_cons _ _ _ _ _ Hc).
    destruct (decide (l0 = l)) as [->|Hne].
    + rewrite lookup_insert_eq, bool_decide_eq_true_2 by done; simpl.
      rewrite E0, Es in Hinv. by rewrite Hinv.
    + by rewrite lookup_insert_ne, bool_decide_eq_false_2.
  - rewrite Ht, (calls_by_eq _ _ _ Hc).
    destruct (decide (l0 = l)) as [->|Hne].
    + rewrite lookup_insert_eq, Es. by rewrite E0 in Hinv.
    + by rewrite lookup_insert_ne.
Qed.

(** X6. After any run that starts in the empty store, [TxSha] has been
    called exactly once on behalf of each handle that caches a hash, and
    never on behalf of a handle that does not. *)
Theorem run_calls_exact os w l :
  run os emptyWorld = Ok tt w ->
  calls_by l w
  = match txs w !! l with
    | Some tx => if is_nil (txSha tx) then 0%nat else 1%nat
    | None => 0%nat
    end.
Proof.
  assert (forall os' w0 w1, run os' w0 = Ok tt w1 -> calls_exact w0 -> calls_exact w1)
    as Hrun.
  { induction os' as [|o os' IH]; intros w0 w1 H Hinv.
    - by injection H as <-.
    - apply run_cons_inv in H as (w2 & H1 & H2).
      eauto using effect_calls_exact, exec_op_effect. }
  intros H. apply (Hrun _ _ _ H). intros l'. simpl. by rewrite lookup_empty.
Qed.

(** *** The cached hash and the record *)

Lemma hash_consistent_empty : hash_consistent (emptyWorld : World).
Proof. intros l tx s. simpl. by rewrite lookup_empty. Qed.



(** *** Clients that never pass nil *)

Lemma nonnil_ok_op_ok w o :
  nonnil_ok (MsgTxData := MsgTxData) w o -> op_ok w o.
Proof.
  destruct o; simpl; try done; by intros (? & -> & ?).
Qed.

Lemma nonnil_not_panics w o :
  records_nonnil w -> nonnil_ok w o -> panics w o = false.
Proof.
  intros Hrec. destruct o as [t|t|t|t i|msg|b|r|msg r]; simpl; try done;
    intros (l & -> & [x E]); try done.
  rewrite E. destruct (Hrec _ _ E) as [m ->]. by rewrite andb_false_r.
Qed.

Lemma exec_op_records_nonnil o w w' :
  nonnil_ok w o -> exec_op o w = Ok tt w' ->
  records_nonnil w -> records_nonnil w'.
Proof.
  intros Hok H Hrec l tx' E'.
  destruct (decide (is_Some (txs w !! l))) as [[tx E]|Hnew].
  - destruct (effect_tx _ _ _ _ _ (exec_op_effect _ _ _ _ _ _ H) E)
      as (tx1 & E1 & Hm & _).
    rewrite E' in E1. injection E1 as <-. rewrite Hm. eauto.
  - apply exec_op_Ok_inv in H.
    destruct o as [t|t|t|t i|msg|b|r|msg r]; simpl in *.
    + destruct H as [-> _]. destruct Hnew. eauto.
    + destruct H as (l0 & p & -> & H).
      destruct (Sha_Ok_inv _ _ _ _ _ H) as (tx & E & [(s & Es & -> & ->)|
        (m & r & Es & Em & Er & -> & ->)]); [destruct Hnew; eauto|].
      simpl in E'. apply lookup_insert_tx_cases in E' as [[-> ->]|E'];
        destruct Hnew; eauto.
    + destruct H as [-> _]. destruct Hnew. eauto.
    + destruct H as (l0 & tx & -> & E & ->). simpl in E'.
      apply lookup_insert_tx_cases in E' as [[-> ->]|E']; destruct Hnew; eauto.
    + subst w'. simpl in E'. destruct Hok as (m & -> & _).
      apply lookup_insert_tx_cases in E' as [[-> ->]|E']; [by eauto|].
      destruct Hnew. eauto.
    + destruct H as [res H]. rewrite NewTxFromBytes_eq in H; simpl in H.
      destruct (wire_Deserialize zeroMsgTx (NewBuffer b)).2; injection H as _ <-;
        simpl in E'; [destruct Hnew; eauto|].
      apply lookup_insert_tx_cases in E' as [[-> ->]|E']; [by eauto|].
      destruct Hnew. eauto.
    + subst w'. destruct Hnew. eauto.
    + destruct H as (m & -> & _ & ->). destruct Hnew. eauto.
Qed.

(** X8. A client that never passes a nil pointer never sees a panic: from
    a well-formed store in which every handle wraps a record, a run whose
    operations are all given pointers into the store returns, and the store
    it ends in is again well formed with every handle wrapping a record. *)
Theorem run_never_panics os w :
  wf w -> records_nonnil w ->
  ops_nonnil zeroMsgTx wire_TxSha wire_Deserialize os w ->
  exists w', run os w = Ok tt w' /\ wf w' /\ records_nonnil w'.
Proof.
  revert w. induction os as [|o os IH]; intros w Hwf Hrec Hok.
  - by exists w.
  - destruct Hok as [Ho Hos]. simpl. unfold bind.
    destruct (exec_op_wf zeroMsgTx wire_TxSha wire_Deserialize o w Hwf
                (nonnil_ok_op_ok _ _ Ho)) as [(w1 & H1 & Hwf1)|HP].
    + rewrite H1. apply IH; eauto using exec_op_records_nonnil.
    + apply exec_op_Panic in HP.
      by rewrite (nonnil_not_panics _ _ Hrec Ho) in HP.
Qed.

(** *** What the constructors share and what they own *)


(** X10. [NewTxFromBytes] leaves what exists alone, whether it fails or
    not: every record, handle and hash of the store is as before and no
    call to [TxSha] is made.  The handle it returns is at a location that
    held none, and in a well-formed store no other handle points to the
    record it wraps. *)
Theorem NewTxFromBytes_fresh_record b w t err w' :
  NewTxFromBytes b w = Ok (t, err) w' ->
  (forall m r, msgs w !! m = Some r -> msgs w' !! m = Some r) /\
  (forall l tx, txs w !! l = Some tx -> txs w' !! l = Some tx) /\
  shas w' = shas w /\ hashCalls w' = hashCalls w /\
  (forall l, t = Some l ->
     txs w !! l = None /\
     exists m,
       msgTx <$> txs w' !! l = Some (Some m) /\
       msgs w !! m = None /\
       (wf w -> forall l' tx, txs w !! l' = Some tx -> msgTx tx <> Some m)).
Proof.
  rewrite NewTxFromBytes_eq; simpl. intros H.
  assert (forall m r, msgs w !! m = Some r ->
            <[fresh (dom (msgs w)) := (wire_Deserialize zeroMsgTx (NewBuffer b)).1]>
              (<[fresh (dom (msgs w)) := zeroMsgTx]> (msgs w)) !! m = Some r) as Hm.
  { intros m r E. rewrite insert_insert_eq. by apply lookup_insert_fresh. }
  destruct (wire_Deserialize zeroMsgTx (NewBuffer b)).2; injection H as <- <- <-;
    simpl; (split; [done|]).
  - by repeat split.
  - split; [intros l tx E; by apply lookup_insert_fresh|].
    split; [done|]. split; [done|]. intros l [= <-].
    split; [apply fresh_tx_None|]. exists (fresh (dom (msgs w))).
    rewrite lookup_insert_eq. split; [done|]. split; [apply fresh_msg_None|].
    intros Hwf l' tx E Em. destruct (Hwf _ _ E) as [Vm _].
    rewrite Em in Vm. destruct Vm as [r Er].
    by rewrite fresh_msg_None in Er.
Qed.

End Invariants.

(** ** The theorems on the instance *)

Lemma Sha_memoised_witness :
  txs Demo.w_handle !! 1%positive = Some Demo.tx0 /\
  (1 <= 3)%nat /\
  exists s w',
    Demo.Sha_times 3 (Some 1%positive) Demo.w_handle
    = Ok (replicate 3 (Some s)) w' /\
    (calls_by 1 w' <= calls_by 1 Demo.w_handle + 1)%nat /\
    (calls_by 1 w' <= 1)%nat.
Proof.
  split; [reflexivity|]. split; [lia|].
  destruct (Sha_memoised Demo.TxSha 3 Demo.w_handle 1%positive Demo.tx0)
    as (s & w' & H & Hc & _ & Hinv & _).
  - reflexivity.
  - right. exists 1%positive, [x01; x02]. split; reflexivity.
  - lia.
  - exists s, w'. split; [exact H|]. split; [exact Hc|]. apply Hinv.
    apply (run_cache_inv Demo.zeroMsgTx Demo.TxSha Demo.Deserialize
             [ExtNewMsgTx [x01; x02]; OpNewTx (Some 1%positive)] emptyWorld);
      [reflexivity|apply cache_inv_empty].
Defined.

Lemma cached_hash_fixed_witness :
  exists w',
    Demo.run Demo.client Demo.w_hashed = Ok tt w' /\
    msgs w' !! 1%positive = Some [x01] /\
    (exists tx', txs w' !! 1%positive = Some tx' /\ txSha tx' = Some 1%positive) /\
    shas w' !! 1%positive = Some 2%N /\
    calls_by 1 w' = calls_by 1 Demo.w_hashed /\
    Demo.Sha (Some 1%positive) w' = Ok (Some 1%positive) w'.
Proof.
  eexists. split; [vm_compute; reflexivity|]. split; [reflexivity|].
  apply (cached_hash_fixed Demo.zeroMsgTx Demo.TxSha Demo.Deserialize
           Demo.client Demo.w_hashed _ 1%positive Demo.tx1 1%positive 2%N);
    reflexivity.
Defined.

(** The operation that refutes C5 as stated: [Sha] is not [SetIndex], and on
    a handle with no cached hash it changes the field [txSha]. *)
Lemma Sha_mutates_txSha :
  sets_index_of 1 (OpSha (MsgTxData := list byte) (Some 1%positive)) = false /\
  txs Demo.w_handle !! 1%positive
  = Some (mkTx (Some 1%positive) None None (-1)) /\
  Demo.exec_op (OpSha (Some 1%positive)) Demo.w_handle = Ok tt Demo.w_hashed /\
  txs Demo.w_hashed !! 1%positive
  = Some (mkTx (Some 1%positive) None (Some 1%positive) (-1)) /\
  txs Demo.w_hashed !! 1%positive <> txs Demo.w_handle !! 1%positive.
Proof. repeat split; try reflexivity. vm_compute. discriminate. Qed.

Lemma handle_frame_witness :
  Demo.exec_op (OpSha (Some 1%positive)) Demo.w_handle = Ok tt Demo.w_hashed /\
  txs Demo.w_handle !! 1%positive = Some Demo.tx0 /\
  exists tx',
    txs Demo.w_hashed !! 1%positive = Some tx' /\
    msgTx tx' = msgTx Demo.tx0 /\ serializedTx tx' = serializedTx Demo.tx0 /\
    txIndex tx' = txIndex Demo.tx0.
Proof.
  split; [reflexivity|]. split; [reflexivity|].
  destruct (handle_frame Demo.zeroMsgTx Demo.TxSha Demo.Deserialize
              (OpSha (Some 1%positive)) Demo.w_handle Demo.w_hashed
              1%positive Demo.tx0 eq_refl eq_refl)
    as (tx' & E & Hm & Hb & Hi & _).
  exists tx'. repeat split; try assumption. apply Hi. reflexivity.
Defined.

Lemma NewTxFromBytes_error_witness :
  exists w',
    Demo.NewTxFromBytes (Some [x00]) emptyWorld
    = Ok (None, Some Demo.ErrMalformed) w' /\
    txs w' = ∅.
Proof.
  destruct (NewTxFromBytes_error (ShaHash := N) Demo.zeroMsgTx Demo.Deserialize
              (Some [x00]) emptyWorld)
    as (t & err & w' & H & He & Hfail & _).
  simpl in He. subst err. destruct Hfail as [-> Ht]; [by eexists|].
  exists w'. split; assumption.
Defined.

Lemma NewTxFromBytes_success_witness :
  Demo.Deserialize Demo.zeroMsgTx (NewBuffer (Some [x01; x02]))
  = ([x01; x02], None) /\
  exists l m w',
    Demo.NewTxFromBytes (Some [x01; x02]) emptyWorld = Ok (Some l, None) w' /\
    txs w' !! l = Some (mkTx (Some m) (Some [x01; x02]) None TxIndexUnknown) /\
    msgs w' !! m = Some [x01; x02].
Proof.
  split; [reflexivity|].
  destruct (NewTxFromBytes_success (ShaHash := N) Demo.zeroMsgTx Demo.Deserialize
              (Some [x01; x02]) emptyWorld [x01; x02] eq_refl)
    as (l & m & w' & H & _ & _ & E & Em & _).
  exists l, m, w'. repeat split; assumption.
Defined.

Lemma NewTxFromBytes_round_trip_witness :
  Demo.Deserialize Demo.zeroMsgTx (NewBuffer (Some [x01; x02]))
  = ([x01; x02], None) /\
  exists l s w1 w2,
    Demo.NewTxFromBytes (Some [x01; x02]) emptyWorld = Ok (Some l, None) w1 /\
    Demo.Sha (Some l) w1 = Ok (Some s) w2 /\
    hash_at w2 (Some s) = Some 2%N.
Proof.
  split; [reflexivity|].
  destruct (NewTxFromBytes_round_trip Demo.zeroMsgTx Demo.TxSha Demo.Deserialize
              (Some [x01; x02]) emptyWorld [x01; x02] eq_refl)
    as (l & m & s & w1 & w2 & H & _ & _ & Hs & Hh).
  exists l, s, w1, w2. repeat split; assumption.
Defined.

Lemma constructors_sentinel_witness :
  NewTx (Some 1%positive) Demo.w_rec = Ok (Some 1%positive) Demo.w_handle /\
  Index (Some 1%positive) Demo.w_handle = Ok (-1) Demo.w_handle /\
  Demo.run [OpSha (Some 1%positive); OpMsgTx (Some 1%positive)] Demo.w_handle
  = Ok tt Demo.w_hashed /\
  Index (Some 1%positive) Demo.w_hashed = Ok (-1) Demo.w_hashed.
Proof.
  destruct (proj1 (constructors_sentinel Demo.zeroMsgTx Demo.TxSha Demo.Deserialize
                     (Some 1%positive) None Demo.w_rec))
    as (l & w1 & H & _ & _ & Hi & Hrun).
  assert (Ok (Some 1%positive) Demo.w_handle = Ok (Some l) w1) as H' by exact H.
  injection H' as <- <-.
  split; [reflexivity|]. split; [exact Hi|]. split; [reflexivity|].
  apply (Hrun [OpSha (Some 1%positive); OpMsgTx (Some 1%positive)]); reflexivity.
Defined.

Lemma SetIndex_Index_witness :
  txs Demo.w_handle !! 1%positive = Some Demo.tx0 /\
  exists w',
    SetIndex (Some 1%positive) (-7) Demo.w_handle = Ok tt w' /\
    Index (Some 1%positive) w' = Ok (-7) w'.
Proof.
  split; [reflexivity|].
  destruct (SetIndex_Index Demo.w_handle 1%positive Demo.tx0 (-7) eq_refl)
    as (w' & H & _ & Hi).
  exists w'. split; assumption.
Defined.

Lemma accessors_return_witness :
  txs Demo.w_blank !! 1%positive = Some Demo.tx0 /\
  msgs Demo.w_blank !! 1%positive = Some [] /\
  Demo.TxSha [] = (0%N, Some Demo.ErrEmpty) /\
  (exists s w',
     Demo.Sha (Some 1%positive) Demo.w_blank = Ok (Some s) w' /\
     hash_at w' (Some s) = Some 0%N) /\
  Index (Some 1%positive) Demo.w_blank = Ok (-1) Demo.w_blank /\
  exists w', SetIndex (Some 1%positive) 5 Demo.w_blank = Ok tt w'.
Proof.
  split; [reflexivity|]. split; [reflexivity|]. split; [reflexivity|].
  destruct (accessors_return Demo.TxSha Demo.w_blank 1%positive Demo.tx0
              1%positive [] eq_refl eq_refl eq_refl)
    as ((s & w' & H & Hh) & Hi & Hset).
  split; [|split; [exact Hi|exact (Hset 5)]].
  exists s, w'. split; [exact H|]. exact (Hh eq_refl).
Defined.

Lemma Sha_nil_record_witness :
  exists l w1,
    NewTx None (emptyWorld : Demo.World) = Ok (Some l) w1 /\
    Demo.Sha (Some l) w1 = Panic.
Proof.
  destruct (proj1 (Sha_nil_record Demo.TxSha (emptyWorld : Demo.World)))
    as (l & w1 & H & _ & HS).
  exists l, w1. split; assumption.
Defined.

(** ** The further properties on the instance *)

Lemma SetIndex_laws_witness :
  txs Demo.w_handle !! 1%positive = Some Demo.tx0 /\
  bind (SetIndex (Some 1%positive) 4) (fun _ => SetIndex (Some 1%positive) 9)
       Demo.w_handle
  = SetIndex (Some 1%positive) 9 Demo.w_handle /\
  bind (Index (Some 1%positive)) (fun k => SetIndex (Some 1%positive) k)
       Demo.w_handle
  = Ok tt Demo.w_handle.
Proof.
  split; [reflexivity|].
  exact (SetIndex_laws Demo.w_handle 1%positive Demo.tx0 4 9 eq_refl).
Defined.

Lemma Sha_pointer_is_cache_witness :
  Demo.Sha (Some 1%positive) Demo.w_handle = Ok (Some 1%positive) Demo.w_hashed /\
  hash_at Demo.w_hashed (Some 1%positive) = Some 2%N /\
  exists w2,
    store_sha (Some 1%positive) 99%N Demo.w_hashed = Ok tt w2 /\
    Demo.Sha (Some 1%positive) w2 = Ok (Some 1%positive) w2 /\
    hash_at w2 (Some 1%positive) = Some 99%N.
Proof.
  split; [reflexivity|]. split; [reflexivity|].
  exact (Sha_pointer_is_cache Demo.TxSha Demo.w_handle Demo.w_hashed 1%positive
           (Some 1%positive) 2%N 99%N eq_refl eq_refl).
Defined.

Lemma Sha_stale_after_write_witness :
  txs Demo.w_handle !! 1%positive = Some Demo.tx0 /\
  msgs Demo.w_handle !! 1%positive = Some [x01; x02] /\
  (Demo.TxSha [x01; x02]).1 = 2%N /\ (Demo.TxSha [x01]).1 = 1%N /\
  exists s w1 w2,
    Demo.Sha (Some 1%positive) Demo.w_handle = Ok (Some s) w1 /\
    store_msg (Some 1%positive) [x01] w1 = Ok tt w2 /\
    msgs w2 !! 1%positive = Some [x01] /\
    Demo.Sha (Some 1%positive) w2 = Ok (Some s) w2 /\
    hash_at w2 (Some s) = Some 2%N.
Proof.
  split; [reflexivity|]. split; [reflexivity|].
  split; [reflexivity|]. split; [reflexivity|].
  destruct (Sha_stale_after_write Demo.TxSha Demo.w_handle 1%positive Demo.tx0
              1%positive [x01; x02] [x01] eq_refl eq_refl eq_refl eq_refl)
    as (s & w1 & w2 & H1 & H2 & _ & Hr & H3 & Hh).
  exists s, w1, w2. repeat split; assumption.
Defined.

Lemma panics_exactly_witness :
  panics Demo.w_blank (OpSha (MsgTxData := list byte) None) = true /\
  Demo.exec_op (OpSha None) Demo.w_blank = Panic /\
  panics Demo.w_blank (OpNewTx (MsgTxData := list byte) None) = false /\
  Demo.exec_op (OpNewTx None) Demo.w_blank <> Panic.
Proof.
  split; [reflexivity|].
  split.
  - apply (proj1 (panics_exactly Demo.zeroMsgTx Demo.TxSha Demo.Deserialize
                    (OpSha None) Demo.w_blank)). reflexivity.
  - split; [reflexivity|]. intros HP.
    apply (proj1 (panics_exactly Demo.zeroMsgTx Demo.TxSha Demo.Deserialize
                    (OpNewTx None) Demo.w_blank)) in HP. discriminate HP.
Defined.

Lemma run_calls_exact_witness :
  exists w,
    Demo.run [ExtNewMsgTx [x01; x02]; OpNewTx (Some 1%positive);
              OpSha (Some 1%positive); OpSha (Some 1%positive);
              OpNewTx (Some 1%positive)] emptyWorld
    = Ok tt w /\
    calls_by 1 w = 1%nat /\ calls_by 2 w = 0%nat.
Proof.
  eexists. split; [vm_compute; reflexivity|]. split.
  - rewrite (run_calls_exact Demo.zeroMsgTx Demo.TxSha Demo.Deserialize
               [ExtNewMsgTx [x01; x02]; OpNewTx (Some 1%positive);
                OpSha (Some 1%positive); OpSha (Some 1%positive);
                OpNewTx (Some 1%positive)] _ 1%positive); reflexivity.
  - reflexivity.
Defined.


Lemma run_never_panics_witness :
  exists w',
    Demo.run [ExtNewMsgTx [x01; x02]; OpNewTx (Some 1%positive);
              OpSha (Some 1%positive)] emptyWorld
    = Ok tt w' /\
    wf w' /\ records_nonnil w'.
Proof.
  apply (run_never_panics Demo.zeroMsgTx Demo.TxSha Demo.Deserialize).
  - intros l tx E. simpl in E. rewrite lookup_empty in E. discriminate E.
  - intros l tx E. simpl in E. rewrite lookup_empty in E. discriminate E.
  - split; [exact I|]. intros w1 H1. injection H1 as <-.
    split; [exists 1%positive; split; [reflexivity|eexists; reflexivity]|].
    intros w2 H2. injection H2 as <-.
    split; [exists 1%positive; split; [reflexivity|eexists; reflexivity]|].
    intros w3 H3. exact I.
Defined.


Lemma NewTxFromBytes_fresh_record_witness :
  exists w',
    Demo.NewTxFromBytes (Some [x01]) Demo.w_hashed
    = Ok (Some 2%positive, None) w' /\
    txs w' !! 1%positive = Some Demo.tx1 /\
    msgs w' !! 1%positive = Some [x01; x02] /\
    shas w' = shas Demo.w_hashed /\ hashCalls w' = hashCalls Demo.w_hashed.
Proof.
  eexists. split; [reflexivity|].
  destruct (NewTxFromBytes_fresh_record Demo.zeroMsgTx Demo.Deserialize
              (Some [x01]) Demo.w_hashed (Some 2%positive) None _ eq_refl)
    as (Hm & Ht & Hs & Hc & _).
  split; [apply Ht; reflexivity|]. split; [apply Hm; reflexivity|].
  split; [exact Hs|exact Hc].
Defined.

Lemma run_wf_witness :
  exists w',
    Demo.run [ExtNewMsgTx [x01; x02]; OpNewTx (Some 1%positive);
              OpSha (Some 1%positive)] emptyWorld
    = Ok tt w' /\ wf w'.
Proof.
  destruct (run_wf Demo.zeroMsgTx Demo.TxSha Demo.Deserialize
              [ExtNewMsgTx [x01; x02]; OpNewTx (Some 1%positive);
               OpSha (Some 1%positive)] emptyWorld) as [H|H].
  - intros l tx E. simpl in E. rewrite lookup_empty in E. discriminate E.
  - split; [exact I|]. intros w1 H1. injection H1 as <-.
    split; [eexists; reflexivity|].
    intros w2 H2. injection H2 as <-.
    split; [eexists; reflexivity|].
    intros w3 H3. exact I.
  - exact H.
  - vm_compute in H. discriminate H.
Defined.

(** ** The functions run on the instance *)

Example run_NewTx :
  NewTx (Some 1%positive) Demo.w_rec = Ok (Some 1%positive) Demo.w_handle.
Proof. reflexivity. Qed.

Example run_Sha :
  Demo.Sha (Some 1%positive) Demo.w_handle = Ok (Some 1%positive) Demo.w_hashed.
Proof. reflexivity. Qed.

Example run_Sha_three_times :
  Demo.Sha_times 3 (Some 1%positive) Demo.w_handle
  = Ok [Some 1%positive; Some 1%positive; Some 1%positive] Demo.w_hashed.
Proof. reflexivity. Qed.

Example run_NewTxFromBytes_rejected :
  Demo.NewTxFromBytes (Some [x00]) emptyWorld
  = Ok (None, Some Demo.ErrMalformed)
       (mkWorld (<[1%positive := []]> ∅) ∅ ∅ []).
Proof. reflexivity. Qed.

Example run_NewTxFromBytes_nil_slice :
  Demo.NewTxFromBytes None emptyWorld
  = Ok (None, Some Demo.ErrMalformed)
       (mkWorld (<[1%positive := []]> ∅) ∅ ∅ []).
Proof. reflexivity. Qed.

Example run_scenario :
  bind (Demo.NewTxFromBytes (Some [x01; x02]))
       (fun h => bind (Index h.1)
       (fun i0 => bind (SetIndex h.1 3)
       (fun _ => bind (Index h.1)
       (fun i1 => bind (Demo.Sha h.1)
       (fun s1 => bind (Demo.Sha h.1)
       (fun s2 w => Ok (i0, i1, s1, s2, hash_at w s1, calls_by 1 w) w))))))
       emptyWorld
  = Ok (-1, 3, Some 1%positive, Some 1%positive, Some 2%N, 1%nat)
       (mkWorld (<[1%positive := [x01; x02]]> ∅)
                (<[1%positive := 2%N]> ∅)
                (<[1%positive := mkTx (Some 1%positive) (Some [x01; x02])
                                      (Some 1%positive) 3]> ∅)
                [(Some 1%positive, Some 1%positive)]).
Proof. reflexivity. Qed.

Example run_Sha_nil_handle : Demo.Sha None (emptyWorld : Demo.World) = Panic.
Proof. reflexivity. Qed.

Example run_client :
  Demo.run Demo.client Demo.w_hashed
  = Ok tt
       (mkWorld (<[1%positive := [x01]]> ∅)
                (<[2%positive := 1%N]> (<[1%positive := 2%N]> ∅))
                (<[2%positive := mkTx (Some 1%positive) None (Some 2%positive) (-1)]>
                   (<[1%positive := mkTx (Some 1%positive) None (Some 1%positive) 3]> ∅))
                [(Some 2%positive, Some 1%positive);
                 (Some 1%positive, Some 1%positive)]).
Proof. vm_compute. reflexivity. Qed.
